(** * pkg/dag/helper.go: past-cone and future-cone traversal of the tangle

    A shallow embedding of [FindAllTails], [processStackApprovees],
    [TraverseApprovees], [processStackApprovers] and [TraverseApprovers].

    - hashes ([hornet.Hash], a byte slice used as [string(hash)] map key)
      are strings;
    - the [visited] map is a [gmap Hash bool], the [discovered] and [tails]
      maps ([map[string]struct{}]) are [gset Hash];
    - the [container/list] work list is a [list Hash] whose head is
      [stack.Front()];
    - package [tangle] (the transaction store, the solid entry points and the
      approver index) is not part of this file of the repository: it is the
      interface [Tangle], a parameter of every definition.  One traversal
      reads one snapshot of it;
    - the callbacks are Go closures: they are functions over a caller state
      [S] that is threaded through the traversal;
    - every observable action of a traversal (handle acquisition, retain,
      release, callback invocation, push on the work list) is appended to an
      event log, newest event first;
    - the two [for stack.Len() > 0] loops are iterated with fuel; a run that
      has used its fuel is reported as [Running] with the state reached. *)

From stdpp Require Import gmap strings list fin_maps relations.

Set Default Proof Using "Type".

(** ** Data model *)

(** [hornet.Hash] *)
Abbreviation Hash := string.

(** The four accessors of a transaction the traversal reads
    ([GetTxHash], [GetTrunkHash], [GetBranchHash], [IsTail]). *)
Record Transaction := mkTransaction {
  GetTxHash : Hash;
  GetTrunkHash : Hash;
  GetBranchHash : Hash;
  IsTail : bool
}.

(** Errors that cross the traversal: the two sentinel errors of package
    [tangle], the sentinel of this file (each wrapped with the offending
    hash), any error value made by a caller's callback, and the run-time
    panic of [stack.Front().Value] on an empty list. *)
Inductive Error :=
| ErrOperationAborted
| ErrTransactionNotFound (hash : Hash)
| ErrFindAllTailsFailed (approveeHash : Hash)
| ErrCaller (msg : string)
| PanicNilElement.

(** Package [tangle], as far as this file calls it. *)
Class Tangle := {
  GetCachedTransactionOrNil : Hash -> option Transaction;
  SolidEntryPointsContain : Hash -> bool;
  GetApproverHashes : Hash -> bool -> list Hash
}.

(** Observable actions, logged newest first. *)
Inductive Event :=
| EvAcquire (h : Hash)                     (* GetCachedTransactionOrNil: tx +1 *)
| EvRetain (h : Hash)                      (* cachedTx.Retain(): tx +1 *)
| EvRelease (h : Hash) (force : bool)      (* cachedTx.Release(force): tx -1 *)
| EvCondition (h : Hash) (traverse : bool) (err : option Error)
| EvConsumer (h : Hash) (err : option Error)
| EvMissing (h : Hash) (err : option Error)
| EvSolidEntryPoint (h : Hash)
| EvPush (h : Hash).                       (* stack.PushFront / stack.PushBack *)

(** What a callback that is handed a retained handle gives back: the
    caller state after the call, the [Release(force)] calls it made on its
    handle, and its Go return value. *)
Record Returned (S R : Type) := mkReturned {
  after : S;
  released : list bool;
  result : R
}.
Arguments mkReturned {S R} _ _ _.
Arguments after {S R} _.
Arguments released {S R} _.
Arguments result {S R} _.

Definition Predicate (S : Type) := Transaction -> S -> Returned S (bool * option Error).
Definition Consumer (S : Type) := Transaction -> S -> Returned S (option Error).
Definition OnMissingApprovee (S : Type) := Hash -> S -> S * option Error.
Definition OnSolidEntryPoint (S : Type) := Hash -> S -> S.

(** [abortSignal <-chan struct{}]: [nil] never delivers; otherwise the
    channel tells, for the k-th non-blocking receive, whether it delivers. *)
Definition AbortSignal := option (nat -> bool).

(** Everything outside the work list and its bookkeeping map. *)
Record World (S : Type) := mkWorld {
  caller : S;
  events : list Event;
  polls : nat
}.
Arguments mkWorld {S} _ _ _.
Arguments caller {S} _.
Arguments events {S} _.
Arguments polls {S} _.

Definition emit {S} (e : Event) (w : World S) : World S :=
  mkWorld (caller w) (e :: events w) (polls w).

Definition setCaller {S} (s : S) (w : World S) : World S :=
  mkWorld s (events w) (polls w).

Definition emitReleases {S} (h : Hash) (forces : list bool) (w : World S) : World S :=
  foldl (fun w force => emit (EvRelease h force) w) w forces.

(** [select { case <-abortSignal: ...; default: }] *)
Definition selectAbort {S} (abortSignal : AbortSignal) (w : World S) : bool * World S :=
  (match abortSignal with None => false | Some delivers => delivers (polls w) end,
   mkWorld (caller w) (events w) (Datatypes.S (polls w))).

(** [condition(cachedTx.Retain())] *)
Definition callCondition {S} (condition : Predicate S) (h : Hash)
    (cachedTx : Transaction) (w : World S) : World S * (bool * option Error) :=
  let r := condition cachedTx (caller w) in
  let w' := emitReleases h (released r) (setCaller (after r) (emit (EvRetain h) w)) in
  (emit (EvCondition h (fst (result r)) (snd (result r))) w', result r).

(** [consumer(cachedTx.Retain())] *)
Definition callConsumer {S} (consumer : Consumer S) (h : Hash)
    (cachedTx : Transaction) (w : World S) : World S * option Error :=
  let r := consumer cachedTx (caller w) in
  let w' := emitReleases h (released r) (setCaller (after r) (emit (EvRetain h) w)) in
  (emit (EvConsumer h (result r)) w', result r).

(** ** Approvee traversal *)

Record ApproveesState (S : Type) := mkApprovees {
  stack : list Hash;
  visited : gmap Hash bool;
  world : World S
}.
Arguments mkApprovees {S} _ _ _.
Arguments stack {S} _.
Arguments visited {S} _.
Arguments world {S} _.

(** [approveeHashes]: the trunk, and the branch when it differs. *)
Definition approveeHashes (tx : Transaction) : list Hash :=
  if decide (GetTrunkHash tx = GetBranchHash tx)
  then [GetTrunkHash tx]
  else [GetTrunkHash tx; GetBranchHash tx].

(** The [for _, approveeHash := range approveeHashes] loop.  [Some h] is
    the early [stack.PushFront(h); return nil]; [None] is the loop running
    to its end. *)
Fixpoint scanApprovees `{Tangle} {S} (onSolidEntryPoint : OnSolidEntryPoint S)
    (traverseSolidEntryPoints : bool) (hs : list Hash)
    (visited : gmap Hash bool) (w : World S)
    : option Hash * gmap Hash bool * World S :=
  match hs with
  | [] => (None, visited, w)
  | approveeHash :: rest =>
    match visited !! approveeHash with
    | Some _ => scanApprovees onSolidEntryPoint traverseSolidEntryPoints rest visited w
    | None =>
      if negb (SolidEntryPointsContain approveeHash) then (Some approveeHash, visited, w)
      else
        let w' := emit (EvSolidEntryPoint approveeHash)
                       (setCaller (onSolidEntryPoint approveeHash (caller w)) w) in
        if traverseSolidEntryPoints then (Some approveeHash, visited, w')
        else scanApprovees onSolidEntryPoint traverseSolidEntryPoints rest
               (<[approveeHash := false]> visited) w'
    end
  end.

(** The part of [processStackApprovees] between [defer cachedTx.Release]
    and the return: lines 97 to 155. *)
Definition processCachedApprovees `{Tangle} {S} (condition : Predicate S)
    (consumer : Consumer S) (onSolidEntryPoint : OnSolidEntryPoint S)
    (traverseSolidEntryPoints : bool)
    (currentTxHash : Hash) (cachedTx : Transaction) (rest : list Hash)
    (visited : gmap Hash bool) (w : World S) : ApproveesState S * option Error :=
  let checked :=
    match visited !! currentTxHash with
    | Some traverse => (w, visited, (traverse, None))
    | None =>
      let '(w', (traverse, err)) := callCondition condition currentTxHash cachedTx w in
      match err with
      | Some e => (w', visited, (traverse, Some e))
      | None => (w', <[currentTxHash := traverse]> visited, (traverse, None))
      end
    end in
  match checked with
  | (w1, visited1, (_, Some e)) =>
      (mkApprovees (currentTxHash :: rest) visited1 w1, Some e)
  | (w1, visited1, (false, None)) =>
      (mkApprovees rest visited1 w1, None)
  | (w1, visited1, (true, None)) =>
      match scanApprovees onSolidEntryPoint traverseSolidEntryPoints
              (approveeHashes cachedTx) visited1 w1 with
      | (Some approveeHash, visited2, w2) =>
          (mkApprovees (approveeHash :: currentTxHash :: rest) visited2
             (emit (EvPush approveeHash) w2), None)
      | (None, visited2, w2) =>
          let '(w3, err) := callConsumer consumer currentTxHash cachedTx w2 in
          (mkApprovees rest visited2 w3, err)
      end
  end.

(** [processStackApprovees] *)
Definition processStackApprovees `{Tangle} {S} (condition : Predicate S)
    (consumer : Consumer S) (onMissingApprovee : OnMissingApprovee S)
    (onSolidEntryPoint : OnSolidEntryPoint S) (forceRelease : bool)
    (traverseSolidEntryPoints : bool) (abortSignal : AbortSignal)
    (st : ApproveesState S) : ApproveesState S * option Error :=
  let '(aborted, w) := selectAbort abortSignal (world st) in
  if aborted then (mkApprovees (stack st) (visited st) w, Some ErrOperationAborted)
  else
    match stack st with
    | [] => (mkApprovees [] (visited st) w, Some PanicNilElement)
    | currentTxHash :: rest =>
      match GetCachedTransactionOrNil currentTxHash with
      | None =>
          let '(s', err) := onMissingApprovee currentTxHash (caller w) in
          (mkApprovees rest (<[currentTxHash := false]> (visited st))
             (emit (EvMissing currentTxHash err) (setCaller s' w)), err)
      | Some cachedTx =>
          let '(st', err) :=
            processCachedApprovees condition consumer onSolidEntryPoint
              traverseSolidEntryPoints currentTxHash cachedTx rest (visited st)
              (emit (EvAcquire currentTxHash) w) in
          (* defer cachedTx.Release(forceRelease) *)
          (mkApprovees (stack st') (visited st')
             (emit (EvRelease currentTxHash forceRelease) (world st')), err)
      end
    end.

(** How far a traversal got: it returned (with [nil] or an error), or its
    fuel ran out while the work list was not empty. *)
Inductive Run (St : Type) :=
| Done (st : St) (err : option Error)
| Running (st : St).
Arguments Done {St} _ _.
Arguments Running {St} _.

Definition reached {St} (r : Run St) : St :=
  match r with Done st _ => st | Running st => st end.

(** The loop [for stack.Len() > 0 { ... }] of [TraverseApprovees]. *)
Fixpoint loopApprovees `{Tangle} {S} (condition : Predicate S)
    (consumer : Consumer S) (onMissingApprovee : OnMissingApprovee S)
    (onSolidEntryPoint : OnSolidEntryPoint S) (forceRelease : bool)
    (traverseSolidEntryPoints : bool) (abortSignal : AbortSignal)
    (fuel : nat) (st : ApproveesState S) : Run (ApproveesState S) :=
  match stack st with
  | [] => Done st None
  | _ :: _ =>
    match fuel with
    | 0 => Running st
    | Datatypes.S fuel' =>
      match processStackApprovees condition consumer onMissingApprovee
              onSolidEntryPoint forceRelease traverseSolidEntryPoints
              abortSignal st with
      | (st', Some e) => Done st' (Some e)
      | (st', None) =>
          loopApprovees condition consumer onMissingApprovee onSolidEntryPoint
            forceRelease traverseSolidEntryPoints abortSignal fuel' st'
      end
    end
  end.

(** [TraverseApprovees], started in caller state [s0]. *)
Definition TraverseApprovees `{Tangle} {S} (startTxHash : Hash)
    (condition : Predicate S) (consumer : Consumer S)
    (onMissingApprovee : OnMissingApprovee S)
    (onSolidEntryPoint : OnSolidEntryPoint S) (forceRelease : bool)
    (traverseSolidEntryPoints : bool) (abortSignal : AbortSignal)
    (fuel : nat) (s0 : S) : Run (ApproveesState S) :=
  loopApprovees condition consumer onMissingApprovee onSolidEntryPoint
    forceRelease traverseSolidEntryPoints abortSignal fuel
    (mkApprovees [startTxHash] ∅ (mkWorld s0 [EvPush startTxHash] 0)).

(** ** Approver traversal *)

Record ApproversState (S : Type) := mkApprovers {
  queue : list Hash;
  discovered : gset Hash;
  bfs : World S
}.
Arguments mkApprovers {S} _ _ _.
Arguments queue {S} _.
Arguments discovered {S} _.
Arguments bfs {S} _.

(** The [for _, approverHash := range tangle.GetApproverHashes(...)] loop. *)
Fixpoint pushApprovers {S} (approverHashes : list Hash) (st : ApproversState S)
    : ApproversState S :=
  match approverHashes with
  | [] => st
  | approverHash :: rest =>
    if decide (approverHash ∈ discovered st) then pushApprovers rest st
    else pushApprovers rest
           (mkApprovers (queue st ++ [approverHash])
              ({[approverHash]} ∪ discovered st)
              (emit (EvPush approverHash) (bfs st)))
  end.

(** The part of [processStackApprovers] between [defer cachedTx.Release]
    and the return: lines 204 to 233. *)
Definition processCachedApprovers `{Tangle} {S} (condition : Predicate S)
    (consumer : Consumer S) (forceRelease : bool)
    (currentTxHash : Hash) (cachedTx : Transaction) (rest : list Hash)
    (discovered : gset Hash) (w : World S) : ApproversState S * option Error :=
  match callCondition condition currentTxHash cachedTx w with
  | (w1, (_, Some e)) => (mkApprovers rest discovered w1, Some e)
  | (w1, (false, None)) => (mkApprovers rest discovered w1, None)
  | (w1, (true, None)) =>
    match callConsumer consumer currentTxHash cachedTx w1 with
    | (w2, Some e) => (mkApprovers rest discovered w2, Some e)
    | (w2, None) =>
        (pushApprovers (GetApproverHashes currentTxHash forceRelease)
           (mkApprovers rest discovered w2), None)
    end
  end.

(** [processStackApprovers] *)
Definition processStackApprovers `{Tangle} {S} (condition : Predicate S)
    (consumer : Consumer S) (forceRelease : bool) (abortSignal : AbortSignal)
    (st : ApproversState S) : ApproversState S * option Error :=
  let '(aborted, w) := selectAbort abortSignal (bfs st) in
  if aborted then (mkApprovers (queue st) (discovered st) w, Some ErrOperationAborted)
  else
    match queue st with
    | [] => (mkApprovers [] (discovered st) w, Some PanicNilElement)
    | currentTxHash :: rest =>
      match GetCachedTransactionOrNil currentTxHash with
      | None =>
          (mkApprovers rest (discovered st) w,
           Some (ErrTransactionNotFound currentTxHash))
      | Some cachedTx =>
          let '(st', err) :=
            processCachedApprovers condition consumer forceRelease
              currentTxHash cachedTx rest (discovered st)
              (emit (EvAcquire currentTxHash) w) in
          (* defer cachedTx.Release(forceRelease) *)
          (mkApprovers (queue st') (discovered st')
             (emit (EvRelease currentTxHash forceRelease) (bfs st')), err)
      end
    end.

(** The loop [for stack.Len() > 0 { ... }] of [TraverseApprovers]. *)
Fixpoint loopApprovers `{Tangle} {S} (condition : Predicate S)
    (consumer : Consumer S) (forceRelease : bool) (abortSignal : AbortSignal)
    (fuel : nat) (st : ApproversState S) : Run (ApproversState S) :=
  match queue st with
  | [] => Done st None
  | _ :: _ =>
    match fuel with
    | 0 => Running st
    | Datatypes.S fuel' =>
      match processStackApprovers condition consumer forceRelease abortSignal st with
      | (st', Some e) => Done st' (Some e)
      | (st', None) =>
          loopApprovers condition consumer forceRelease abortSignal fuel' st'
      end
    end
  end.

(** [TraverseApprovers], started in caller state [s0]. *)
Definition TraverseApprovers `{Tangle} {S} (startTxHash : Hash)
    (condition : Predicate S) (consumer : Consumer S) (forceRelease : bool)
    (abortSignal : AbortSignal) (fuel : nat) (s0 : S)
    : Run (ApproversState S) :=
  loopApprovers condition consumer forceRelease abortSignal fuel
    (mkApprovers [startTxHash] {[startTxHash]}
       (mkWorld s0 [EvPush startTxHash] 0)).

(** ** Tail finding *)

(** The four closures [FindAllTails] hands to [TraverseApprovees]; the
    caller state is the [tails] map they capture. *)
Definition tailsCondition (startTxHash : Hash) (skipStartTx : bool)
    : Predicate (gset Hash) :=
  fun cachedTx tails =>
    if skipStartTx && String.eqb startTxHash (GetTxHash cachedTx)
    then mkReturned tails [true] (true, None)
    else if IsTail cachedTx
    then mkReturned ({[GetTxHash cachedTx]} ∪ tails) [true] (false, None)
    else mkReturned tails [true] (true, None).

Definition tailsConsumer : Consumer (gset Hash) :=
  fun cachedTx tails => mkReturned tails [true] None.

Definition tailsOnMissingApprovee : OnMissingApprovee (gset Hash) :=
  fun approveeHash tails => (tails, Some (ErrFindAllTailsFailed approveeHash)).

Definition tailsOnSolidEntryPoint : OnSolidEntryPoint (gset Hash) :=
  fun approveeHash tails => tails.

(** The traversal [FindAllTails] runs, with its log. *)
Definition findAllTailsRun `{Tangle} (startTxHash : Hash) (skipStartTx : bool)
    (forceRelease : bool) (fuel : nat) : Run (ApproveesState (gset Hash)) :=
  TraverseApprovees startTxHash
    (tailsCondition startTxHash skipStartTx)
    tailsConsumer tailsOnMissingApprovee tailsOnSolidEntryPoint
    true false None fuel ∅.

(** [FindAllTails]: [return tails, err]; [None] when the fuel does not
    reach the return. *)
Definition FindAllTails `{Tangle} (startTxHash : Hash) (skipStartTx : bool)
    (forceRelease : bool) (fuel : nat) : option (gset Hash * option Error) :=
  match findAllTailsRun startTxHash skipStartTx forceRelease fuel with
  | Done st err => Some (caller (world st), err)
  | Running _ => None
  end.

(** ** Vocabulary of the properties *)

(** [x] references [a]: [a] is the trunk or the branch of the stored
    transaction [x]. *)
Definition approvee `{Tangle} (x a : Hash) : Prop :=
  exists tx, GetCachedTransactionOrNil x = Some tx /\ a ∈ approveeHashes tx.

(** The tangle is acyclic: no transaction is in its own past cone. *)
Definition Acyclic `{Tangle} : Prop := forall x, ~ tc approvee x x.

(** Number of events of a log that satisfy [p]. *)
Fixpoint tally (p : Event -> bool) (evs : list Event) : nat :=
  match evs with
  | [] => 0
  | e :: older => (if p e then 1 else 0) + tally p older
  end.

Definition isCondition (h : Hash) (e : Event) : bool :=
  match e with EvCondition h' _ _ => bool_decide (h' = h) | _ => false end.
Definition isConsumer (e : Event) : bool :=
  match e with EvConsumer _ _ => true | _ => false end.
Definition isAnyCondition (e : Event) : bool :=
  match e with EvCondition _ _ _ => true | _ => false end.
Definition isSolidEntryPoint (h : Hash) (e : Event) : bool :=
  match e with EvSolidEntryPoint h' => bool_decide (h' = h) | _ => false end.
Definition isPush (h : Hash) (e : Event) : bool :=
  match e with EvPush h' => bool_decide (h' = h) | _ => false end.
Definition isAcquisition (e : Event) : bool :=
  match e with EvAcquire _ | EvRetain _ => true | _ => false end.
Definition isRelease (e : Event) : bool :=
  match e with EvRelease _ _ => true | _ => false end.

Definition acquisitions (evs : list Event) : nat := tally isAcquisition evs.
Definition releases (evs : list Event) : nat := tally isRelease evs.

(** A callback releases the retained handle it is given: one [Release]. *)
Definition releasesItsHandle {S R} (callback : Transaction -> S -> Returned S R) : Prop :=
  forall cachedTx s, length (released (callback cachedTx s)) = 1.

(** What the log says about an identifier. *)
Definition consumed (h : Hash) (evs : list Event) : Prop :=
  exists err, EvConsumer h err ∈ evs.
Definition missing (h : Hash) (evs : list Event) : Prop :=
  exists err, EvMissing h err ∈ evs.
Definition excluded (h : Hash) (evs : list Event) : Prop :=
  EvCondition h false None ∈ evs.
Definition boundary `{Tangle} (traverseSolidEntryPoints : bool) (h : Hash)
    (evs : list Event) : Prop :=
  traverseSolidEntryPoints = false /\ SolidEntryPointsContain h = true /\
  EvSolidEntryPoint h ∈ evs.

(** An approvee is settled: consumed, found missing, excluded by the
    predicate, or a solid entry point that is reported and not traversed. *)
Definition settled `{Tangle} (traverseSolidEntryPoints : bool) (h : Hash)
    (evs : list Event) : Prop :=
  consumed h evs \/ missing h evs \/ excluded h evs \/
  boundary traverseSolidEntryPoints h evs.

(** [P e older] holds of every event [e] of the log and the events [older]
    than it. *)
Fixpoint eachAfter (P : Event -> list Event -> Prop) (evs : list Event) : Prop :=
  match evs with
  | [] => True
  | e :: older => P e older /\ eachAfter P older
  end.

Definition consumedAfterSettled `{Tangle} (traverseSolidEntryPoints : bool)
    (e : Event) (older : list Event) : Prop :=
  match e with
  | EvConsumer x _ => forall a, approvee x a -> settled traverseSolidEntryPoints a older
  | _ => True
  end.

Definition consumedAfterBoundary `{Tangle} (startTxHash : Hash)
    (e : Event) (older : list Event) : Prop :=
  match e with
  | EvConsumer x _ =>
      forall a, approvee x a -> SolidEntryPointsContain a = true ->
                a <> startTxHash -> EvSolidEntryPoint a ∈ older
  | _ => True
  end.

(** Each element of the stack is an approvee of the element below it. *)
Fixpoint chain `{Tangle} (stack : list Hash) : Prop :=
  match stack with
  | x :: ((y :: _) as below) => approvee y x /\ chain below
  | _ => True
  end.

(** ** The paths through the two step functions *)

Section Paths.
Context `{Tangle} {S : Type}.
Context (condition : Predicate S) (consumer : Consumer S)
        (onMissingApprovee : OnMissingApprovee S)
        (onSolidEntryPoint : OnSolidEntryPoint S)
        (forceRelease traverseSolidEntryPoints : bool)
        (abortSignal : AbortSignal).

(** Lines 97 to 109: the memoized result, or the predicate's. *)
Inductive Checked (cur : Hash) (tx : Transaction) (vis : gmap Hash bool)
    (w : World S) : World S -> gmap Hash bool -> bool -> Prop :=
| checked_before traverse :
    vis !! cur = Some traverse ->
    Checked cur tx vis w w vis traverse
| checked_now w1 traverse :
    vis !! cur = None ->
    callCondition condition cur tx w = (w1, (traverse, None)) ->
    Checked cur tx vis w w1 (<[cur := traverse]> vis) traverse.

Inductive ApproveesStep (st : ApproveesState S)
    : ApproveesState S -> option Error -> Prop :=
| step_aborted w :
    selectAbort abortSignal (world st) = (true, w) ->
    ApproveesStep st (mkApprovees (stack st) (visited st) w)
      (Some ErrOperationAborted)
| step_empty w :
    selectAbort abortSignal (world st) = (false, w) ->
    stack st = [] ->
    ApproveesStep st (mkApprovees [] (visited st) w) (Some PanicNilElement)
| step_missing w cur rest s' err :
    selectAbort abortSignal (world st) = (false, w) ->
    stack st = cur :: rest ->
    GetCachedTransactionOrNil cur = None ->
    onMissingApprovee cur (caller w) = (s', err) ->
    ApproveesStep st
      (mkApprovees rest (<[cur := false]> (visited st))
         (emit (EvMissing cur err) (setCaller s' w))) err
| step_condition_failed w cur rest tx w1 traverse e :
    selectAbort abortSignal (world st) = (false, w) ->
    stack st = cur :: rest ->
    GetCachedTransactionOrNil cur = Some tx ->
    visited st !! cur = None ->
    callCondition condition cur tx (emit (EvAcquire cur) w)
      = (w1, (traverse, Some e)) ->
    ApproveesStep st
      (mkApprovees (cur :: rest) (visited st)
         (emit (EvRelease cur forceRelease) w1)) (Some e)
| step_excluded w cur rest tx w1 vis1 :
    selectAbort abortSignal (world st) = (false, w) ->
    stack st = cur :: rest ->
    GetCachedTransactionOrNil cur = Some tx ->
    Checked cur tx (visited st) (emit (EvAcquire cur) w) w1 vis1 false ->
    ApproveesStep st
      (mkApprovees rest vis1 (emit (EvRelease cur forceRelease) w1)) None
| step_pushed w cur rest tx w1 vis1 a vis2 w2 :
    selectAbort abortSignal (world st) = (false, w) ->
    stack st = cur :: rest ->
    GetCachedTransactionOrNil cur = Some tx ->
    Checked cur tx (visited st) (emit (EvAcquire cur) w) w1 vis1 true ->
    scanApprovees onSolidEntryPoint traverseSolidEntryPoints
      (approveeHashes tx) vis1 w1 = (Some a, vis2, w2) ->
    ApproveesStep st
      (mkApprovees (a :: cur :: rest) vis2
         (emit (EvRelease cur forceRelease) (emit (EvPush a) w2))) None
| step_consumed w cur rest tx w1 vis1 vis2 w2 w3 err :
    selectAbort abortSignal (world st) = (false, w) ->
    stack st = cur :: rest ->
    GetCachedTransactionOrNil cur = Some tx ->
    Checked cur tx (visited st) (emit (EvAcquire cur) w) w1 vis1 true ->
    scanApprovees onSolidEntryPoint traverseSolidEntryPoints
      (approveeHashes tx) vis1 w1 = (None, vis2, w2) ->
    callConsumer consumer cur tx w2 = (w3, err) ->
    ApproveesStep st
      (mkApprovees rest vis2 (emit (EvRelease cur forceRelease) w3)) err.

End Paths.

(** ** Example tangles *)

(** A tangle given by its stored transactions, its solid entry points and
    its approver index. *)
Definition tangleOf (txs : list Transaction) (solidEntryPoints : list Hash)
    (approvers : list (Hash * list Hash)) : Tangle := {|
  GetCachedTransactionOrNil h :=
    List.find (fun tx => String.eqb (GetTxHash tx) h) txs;
  SolidEntryPointsContain h := existsb (String.eqb h) solidEntryPoints;
  GetApproverHashes h _ :=
    match List.find (fun p => String.eqb (fst p) h) approvers with
    | Some p => snd p
    | None => []
    end
|}.

Open Scope string_scope.

(** A -> B -> C, C a tail. *)
Definition chainABC : Tangle :=
  tangleOf [mkTransaction "A" "B" "B" false;
            mkTransaction "B" "C" "C" false;
            mkTransaction "C" "D" "D" true] [] [].

(** A -> B -> C, A and C tails. *)
Definition chainTailA : Tangle :=
  tangleOf [mkTransaction "A" "B" "B" true;
            mkTransaction "B" "C" "C" false;
            mkTransaction "C" "D" "D" true] [] [].

(** A references B and C, which both reference the solid entry point S. *)
Definition diamondOnBoundary : Tangle :=
  tangleOf [mkTransaction "A" "B" "C" false;
            mkTransaction "B" "S" "S" false;
            mkTransaction "C" "S" "S" false] ["S"] [].

(** A references the tail B and the transaction M, which is not stored. *)
Definition tailAndMissing : Tangle :=
  tangleOf [mkTransaction "A" "B" "M" false;
            mkTransaction "B" "C" "C" true] [] [].

(** D is approved by B and C, which both approve A (future cone of A);
    the index lists D twice under B. *)
Definition diamondFuture : Tangle :=
  tangleOf [mkTransaction "A" "Z" "Z" false;
            mkTransaction "B" "A" "A" false;
            mkTransaction "C" "A" "A" false;
            mkTransaction "D" "B" "C" false] []
           [("A", ["B"; "C"]); ("B", ["D"; "D"]); ("C", ["D"])].

(** A approved by X, which the index lists and the store does not hold. *)
Definition danglingApprover : Tangle :=
  tangleOf [mkTransaction "A" "Z" "Z" false] [] [("A", ["X"])].

(** Callbacks that accept everything and release their handle once. *)
Definition acceptAll : Predicate unit :=
  fun _ s => mkReturned s [false] (true, None).
Definition consumeAll : Consumer unit :=
  fun _ s => mkReturned s [false] None.
Definition ignoreMissing : OnMissingApprovee unit := fun _ s => (s, None).
Definition failOnMissing : OnMissingApprovee unit :=
  fun h s => (s, Some (ErrCaller h)).
Definition ignoreSolidEntryPoint : OnSolidEntryPoint unit := fun _ s => s.

(** An abort channel that is closed before the traversal starts. *)
Definition closedChannel : AbortSignal := Some (fun _ => true).

Close Scope string_scope.

(** ** Invariants and step relations used by the proofs *)

(** ** The invariant of the approvee traversal *)

Section ApproveesInvariant.
Context `{Tangle} {S : Type}.
Context (startTxHash : Hash) (traverseSolidEntryPoints : bool).

(** [ApproveesInv r st]: what holds of the state [st] that
    [TraverseApprovees] has reached, [r] being [None] while the loop runs
    and the error once a step has returned one. *)
Record ApproveesInv (r : option Error) (st : ApproveesState S) : Prop := {
  inv_chain : chain (stack st);
  inv_true : forall h, visited st !! h = Some true ->
    h ∈ stack st \/ consumed h (events (world st));
  inv_false : forall h, visited st !! h = Some false ->
    missing h (events (world st)) \/ excluded h (events (world st)) \/
    boundary traverseSolidEntryPoints h (events (world st));
  inv_memo : forall h b, EvCondition h b None ∈ events (world st) ->
    visited st !! h = Some b;
  inv_stored : forall h b e, EvCondition h b e ∈ events (world st) ->
    is_Some (GetCachedTransactionOrNil h);
  inv_running : r = None ->
    forall h b e, EvCondition h b e ∈ events (world st) -> e = None;
  inv_condition_once : forall h, tally (isCondition h) (events (world st)) <= 1;
  inv_reported : forall h, EvSolidEntryPoint h ∈ events (world st) ->
    is_Some (visited st !! h) \/ head (stack st) = Some h;
  inv_reported_once : forall h,
    tally (isSolidEntryPoint h) (events (world st)) <= 1;
  inv_origin : forall h, is_Some (visited st !! h) \/ h ∈ stack st ->
    SolidEntryPointsContain h = true ->
    h = startTxHash \/ EvSolidEntryPoint h ∈ events (world st);
  inv_settled : Acyclic ->
    eachAfter (consumedAfterSettled traverseSolidEntryPoints) (events (world st));
  inv_boundary :
    eachAfter (consumedAfterBoundary startTxHash) (events (world st))
}.

End ApproveesInvariant.

(** Events that no property of the approvee traversal looks at. *)
Definition neutral (e : Event) : bool :=
  match e with
  | EvAcquire _ | EvRetain _ | EvRelease _ _ | EvPush _ => true
  | _ => false
  end.

(** The log [evs'] extends [evs] by as many releases as acquisitions. *)
Definition sameNet (evs evs' : list Event) : Prop :=
  acquisitions evs' + releases evs = releases evs' + acquisitions evs.

(** ** The paths through [processStackApprovers] *)

Section ApproverPaths.
Context `{Tangle} {S : Type}.
Context (condition : Predicate S) (consumer : Consumer S)
        (forceRelease : bool) (abortSignal : AbortSignal).

Inductive ApproversStep (st : ApproversState S)
    : ApproversState S -> option Error -> Prop :=
| bfs_aborted w :
    selectAbort abortSignal (bfs st) = (true, w) ->
    ApproversStep st (mkApprovers (queue st) (discovered st) w)
      (Some ErrOperationAborted)
| bfs_empty w :
    selectAbort abortSignal (bfs st) = (false, w) ->
    queue st = [] ->
    ApproversStep st (mkApprovers [] (discovered st) w) (Some PanicNilElement)
| bfs_missing w cur rest :
    selectAbort abortSignal (bfs st) = (false, w) ->
    queue st = cur :: rest ->
    GetCachedTransactionOrNil cur = None ->
    ApproversStep st (mkApprovers rest (discovered st) w)
      (Some (ErrTransactionNotFound cur))
| bfs_condition_failed w cur rest tx w1 traverse e :
    selectAbort abortSignal (bfs st) = (false, w) ->
    queue st = cur :: rest ->
    GetCachedTransactionOrNil cur = Some tx ->
    callCondition condition cur tx (emit (EvAcquire cur) w)
      = (w1, (traverse, Some e)) ->
    ApproversStep st
      (mkApprovers rest (discovered st) (emit (EvRelease cur forceRelease) w1))
      (Some e)
| bfs_excluded w cur rest tx w1 :
    selectAbort abortSignal (bfs st) = (false, w) ->
    queue st = cur :: rest ->
    GetCachedTransactionOrNil cur = Some tx ->
    callCondition condition cur tx (emit (EvAcquire cur) w)
      = (w1, (false, None)) ->
    ApproversStep st
      (mkApprovers rest (discovered st) (emit (EvRelease cur forceRelease) w1))
      None
| bfs_consumer_failed w cur rest tx w1 w2 e :
    selectAbort abortSignal (bfs st) = (false, w) ->
    queue st = cur :: rest ->
    GetCachedTransactionOrNil cur = Some tx ->
    callCondition condition cur tx (emit (EvAcquire cur) w)
      = (w1, (true, None)) ->
    callConsumer consumer cur tx w1 = (w2, Some e) ->
    ApproversStep st
      (mkApprovers rest (discovered st) (emit (EvRelease cur forceRelease) w2))
      (Some e)
| bfs_expanded w cur rest tx w1 w2 st2 :
    selectAbort abortSignal (bfs st) = (false, w) ->
    queue st = cur :: rest ->
    GetCachedTransactionOrNil cur = Some tx ->
    callCondition condition cur tx (emit (EvAcquire cur) w)
      = (w1, (true, None)) ->
    callConsumer consumer cur tx w1 = (w2, None) ->
    pushApprovers (GetApproverHashes cur forceRelease)
      (mkApprovers rest (discovered st) w2) = st2 ->
    ApproversStep st
      (mkApprovers (queue st2) (discovered st2)
         (emit (EvRelease cur forceRelease) (bfs st2)))
      None.

End ApproverPaths.

(** The log and the discovered set agree: every push is of an identifier
    in the set, and no identifier is pushed twice. *)
Definition pushedOnce (discovered : gset Hash) (evs : list Event) : Prop :=
  (forall h, tally (isPush h) evs <= 1) /\
  (forall h, EvPush h ∈ evs -> h ∈ discovered).

(** [onSolidEntryPoint] called once for every reference: a solid entry point
    referenced by two different consumed nodes is reported for each of
    them. *)
Definition reportedForEveryReference `{Tangle} (evs : list Event) : Prop :=
  forall x y a, x <> y -> consumed x evs -> consumed y evs ->
    approvee x a -> approvee y a -> SolidEntryPointsContain a = true ->
    2 <= tally (isSolidEntryPoint a) evs.

(** [tails] holds exactly the hashes the predicate has recorded according
    to the log: those of the stored tails it stopped at. *)
Definition recordedIn `{Tangle} (tails : gset Hash) (evs : list Event) : Prop :=
  forall h, h ∈ tails <->
    exists cur tx, GetCachedTransactionOrNil cur = Some tx /\
                   GetTxHash tx = h /\ IsTail tx = true /\
                   EvCondition cur false None ∈ evs.

Definition isStop (e : Event) : bool :=
  match e with EvCondition _ false None => true | _ => false end.

(** * Proofs *)

(** ** Logs *)

Lemma tally_app p evs1 evs2 : tally p (evs1 ++ evs2) = tally p evs1 + tally p evs2.
Proof. induction evs1 as [|e evs1 IH]; simpl; [done | rewrite IH; lia]. Qed.

Lemma tally_none p evs : (forall e, e ∈ evs -> p e = false) -> tally p evs = 0.
Proof.
  induction evs as [|e evs IH]; intros Hp; simpl; [done|].
  rewrite (Hp e) by (left). rewrite IH; [done|].
  intros e' He'. apply Hp. by right.
Qed.

Lemma tally_pos p evs e : e ∈ evs -> p e = true -> 0 < tally p evs.
Proof.
  induction 1 as [|? ? ? ? IH]; intros Hp; simpl.
  - rewrite Hp. lia.
  - specialize (IH Hp). lia.
Qed.

Lemma tally_rev p evs : tally p (rev evs) = tally p evs.
Proof.
  induction evs as [|e evs IH]; simpl; [done|].
  rewrite tally_app, IH. simpl. lia.
Qed.

Lemma eachAfter_split P newer e older :
  eachAfter P (newer ++ e :: older) -> P e older.
Proof. induction newer as [|e' newer IH]; simpl; [tauto | intros [_ ?]; auto]. Qed.

Lemma eachAfter_app P evs1 evs2 :
  (forall newer e older, evs1 = newer ++ e :: older -> P e (older ++ evs2)) ->
  eachAfter P evs2 -> eachAfter P (evs1 ++ evs2).
Proof.
  induction evs1 as [|e evs1 IH]; intros H1 H2; simpl; [done|].
  split.
  - apply (H1 [] e evs1). done.
  - apply IH; [|done]. intros newer e' older ->. apply (H1 (e :: newer)). done.
Qed.

Section WorldFacts.
Context {S : Type}.
Implicit Types (w : World S) (h : Hash).

Lemma emitReleases_events h forces w :
  events (emitReleases h forces w) = rev (EvRelease h <$> forces) ++ events w.
Proof.
  unfold emitReleases. revert w.
  induction forces as [|f forces IH]; intros w; simpl; [done|].
  rewrite IH. simpl. by rewrite <- app_assoc.
Qed.

Lemma emitReleases_polls h forces w : polls (emitReleases h forces w) = polls w.
Proof.
  unfold emitReleases. revert w.
  induction forces as [|f forces IH]; intros w; simpl; [done|]. by rewrite IH.
Qed.

Lemma emitReleases_caller h forces w : caller (emitReleases h forces w) = caller w.
Proof.
  unfold emitReleases. revert w.
  induction forces as [|f forces IH]; intros w; simpl; [done|]. by rewrite IH.
Qed.

(** The log after [condition(cachedTx.Retain())]. *)
Lemma callCondition_events (condition : Predicate S) h tx w w1 r :
  callCondition condition h tx w = (w1, r) ->
  events w1 = EvCondition h (fst r) (snd r)
                :: rev (EvRelease h <$> released (condition tx (caller w)))
                ++ EvRetain h :: events w
  /\ polls w1 = polls w /\ r = result (condition tx (caller w))
  /\ caller w1 = after (condition tx (caller w)).
Proof.
  unfold callCondition. intros [= <- <-]. simpl.
  rewrite emitReleases_events, emitReleases_polls, emitReleases_caller. done.
Qed.

(** The log after [consumer(cachedTx.Retain())]. *)
Lemma callConsumer_events (consumer : Consumer S) h tx w w1 r :
  callConsumer consumer h tx w = (w1, r) ->
  events w1 = EvConsumer h r
                :: rev (EvRelease h <$> released (consumer tx (caller w)))
                ++ EvRetain h :: events w
  /\ polls w1 = polls w /\ r = result (consumer tx (caller w))
  /\ caller w1 = after (consumer tx (caller w)).
Proof.
  unfold callConsumer. intros [= <- <-]. simpl.
  rewrite emitReleases_events, emitReleases_polls, emitReleases_caller. done.
Qed.

Lemma selectAbort_world abortSignal w b w' :
  selectAbort abortSignal w = (b, w') ->
  events w' = events w /\ caller w' = caller w /\ polls w' = Datatypes.S (polls w).
Proof. unfold selectAbort. by intros [= <- <-]. Qed.

End WorldFacts.

(** ** Every step takes one of the paths *)

Section StepSound.
Context `{Tangle} {S : Type}.
Context (condition : Predicate S) (consumer : Consumer S)
        (onMissingApprovee : OnMissingApprovee S)
        (onSolidEntryPoint : OnSolidEntryPoint S)
        (forceRelease traverseSolidEntryPoints : bool)
        (abortSignal : AbortSignal).

Lemma processStackApprovees_path st st' r :
  processStackApprovees condition consumer onMissingApprovee onSolidEntryPoint
    forceRelease traverseSolidEntryPoints abortSignal st = (st', r) ->
  ApproveesStep condition consumer onMissingApprovee onSolidEntryPoint
    forceRelease traverseSolidEntryPoints abortSignal st st' r.
Proof.
  unfold processStackApprovees.
  destruct (selectAbort abortSignal (world st)) as [[|] w] eqn:Hsel.
  { intros ?; simplify_eq/=. by apply step_aborted. }
  destruct (stack st) as [|cur rest] eqn:Hstack.
  { intros ?; simplify_eq/=. by apply step_empty. }
  destruct (GetCachedTransactionOrNil cur) as [tx|] eqn:Hget; cycle 1.
  { destruct (onMissingApprovee cur (caller w)) as [s' err] eqn:Hmiss.
    intros ?; simplify_eq/=. by eapply step_missing. }
  unfold processCachedApprovees.
  destruct (visited st !! cur) as [[|]|] eqn:Hvis.
  - destruct (scanApprovees _ _ _ _ _) as [[[a|] vis2] w2] eqn:Hscan.
    + intros ?; simplify_eq/=. eapply step_pushed; eauto. by constructor.
    + destruct (callConsumer consumer cur tx w2) as [w3 err] eqn:Hcons.
      intros ?; simplify_eq/=. eapply step_consumed; eauto. by constructor.
  - intros ?; simplify_eq/=. eapply step_excluded; eauto. by constructor.
  - destruct (callCondition _ _ _ _) as [w1 [traverse [e|]]] eqn:Hcond.
    { destruct traverse; intros ?; simplify_eq/=;
        eapply step_condition_failed; eauto. }
    destruct traverse.
    + destruct (scanApprovees _ _ _ _ _) as [[[a|] vis2] w2] eqn:Hscan.
      * intros ?; simplify_eq/=. eapply step_pushed; eauto. by constructor.
      * destruct (callConsumer consumer cur tx w2) as [w3 err] eqn:Hcons.
        intros ?; simplify_eq/=. eapply step_consumed; eauto. by constructor.
    + intros ?; simplify_eq/=. eapply step_excluded; eauto. by constructor.
Qed.

End StepSound.

(** ** The scan of the approvees *)

Section Scan.
Context `{Tangle} {S : Type}.
Context (onSolidEntryPoint : OnSolidEntryPoint S)
        (traverseSolidEntryPoints : bool).

(** What the loop over [approveeHashes] does: it reports solid entry
    points that are not in [visited] (newest first in [reported]), marks
    them [false] unless they are traversed, and stops at the first
    approvee it pushes. *)
Lemma scanApprovees_spec hs vis (w : World S) r vis' w' :
  scanApprovees onSolidEntryPoint traverseSolidEntryPoints hs vis w
    = (r, vis', w') ->
  exists reported : list Hash,
    events w' = (EvSolidEntryPoint <$> reported) ++ events w
    /\ polls w' = polls w
    /\ NoDup reported
    /\ (forall h, h ∈ reported ->
          h ∈ hs /\ vis !! h = None /\ SolidEntryPointsContain h = true /\
          ((traverseSolidEntryPoints = false /\ vis' !! h = Some false) \/
           (traverseSolidEntryPoints = true /\ r = Some h)))
    /\ (forall h, vis' !! h = vis !! h \/
          (vis !! h = None /\ vis' !! h = Some false /\
           traverseSolidEntryPoints = false /\ h ∈ reported))
    /\ match r with
       | Some a => a ∈ hs /\ vis' !! a = None /\
                   (SolidEntryPointsContain a = true ->
                    a ∈ reported /\ traverseSolidEntryPoints = true)
       | None => forall a, a ∈ hs -> is_Some (vis' !! a)
       end.
Proof.
  revert vis w r vis' w'.
  induction hs as [|h0 hs IH]; intros vis w r vis' w' Hscan; simpl in Hscan.
  { simplify_eq. exists []. split_and!; try done.
    - constructor.
    - intros h Hh. by apply elem_of_nil in Hh.
    - by left.
    - intros a Ha. by apply elem_of_nil in Ha. }
  destruct (vis !! h0) as [b|] eqn:Hv.
  { apply IH in Hscan as (reported & Hev & Hp & Hnd & Hrep & Hvis & Hr).
    exists reported. split_and!; try done.
    - intros h Hh. destruct (Hrep h Hh) as (? & ? & ? & ?).
      split_and!; try done. by right.
    - destruct r as [a|].
      + destruct Hr as (? & ? & ?). split_and!; try done. by right.
      + intros a [->|Ha]%elem_of_cons; [|by apply Hr].
        destruct (Hvis h0) as [->|(? & ?)]; [by rewrite Hv | congruence]. }
  destruct (SolidEntryPointsContain h0) eqn:Hsep; simpl in Hscan; cycle 1.
  { simplify_eq. exists []. split_and!; try done.
    - constructor.
    - intros h Hh. by apply elem_of_nil in Hh.
    - by left.
    - by left.
    - congruence. }
  destruct traverseSolidEntryPoints eqn:Htsep.
  { simplify_eq. exists [h0]. split_and!; try done.
    - apply NoDup_singleton.
    - intros h ->%list_elem_of_singleton. split_and!; try done; [by left | by right].
    - by left.
    - by left.
    - intros _. split; [by left | done]. }
  apply IH in Hscan as (reported & Hev & Hp & Hnd & Hrep & Hvis & Hr).
  assert (Hfresh : h0 ∉ reported).
  { intros Hin. destruct (Hrep h0 Hin) as (_ & Hnone & _).
    by rewrite lookup_insert_eq in Hnone. }
  exists (reported ++ [h0]). split_and!.
  - rewrite Hev. simpl. rewrite fmap_app. simpl. by rewrite <- app_assoc.
  - done.
  - apply NoDup_app. split_and!; [done | | apply NoDup_singleton].
    intros h Hh ->%list_elem_of_singleton. done.
  - intros h [Hh| ->%list_elem_of_singleton]%elem_of_app.
    + destruct (Hrep h Hh) as (Hhs & Hnone & Hs & Hcase).
      assert (h <> h0) by (intros ->; done).
      rewrite lookup_insert_ne in Hnone by done.
      split_and!; try done; try (by right).
    + split_and!; try done; try (by left). left. split; [done|].
      destruct (Hvis h0) as [->|(Hnone & _)]; [by rewrite lookup_insert_eq|].
      by rewrite lookup_insert_eq in Hnone.
  - intros h. destruct (decide (h = h0)) as [->|Hne].
    + right. split_and!; try done; [|apply elem_of_app; right; by left].
      destruct (Hvis h0) as [->|(Hnone & _)]; [by rewrite lookup_insert_eq|].
      by rewrite lookup_insert_eq in Hnone.
    + destruct (Hvis h) as [Heq|(Hnone & ? & ? & ?)].
      * left. by rewrite lookup_insert_ne in Heq.
      * right. rewrite lookup_insert_ne in Hnone by done.
        split_and!; try done. apply elem_of_app. by left.
  - destruct r as [a|].
    + destruct Hr as (Ha & Hnone & Hs). split_and!; [by right | done |].
      intros Hsa. destruct (Hs Hsa) as [_ ?]. done.
    + intros a [->|Ha]%elem_of_cons; [|by apply Hr].
      destruct (Hvis h0) as [->|(Hnone & _)]; [by rewrite lookup_insert_eq|].
      by rewrite lookup_insert_eq in Hnone.
Qed.

Lemma scanApprovees_caller_unchanged hs vis (w : World S) r vis' w' :
  (forall h s, onSolidEntryPoint h s = s) ->
  scanApprovees onSolidEntryPoint traverseSolidEntryPoints hs vis w
    = (r, vis', w') ->
  caller w' = caller w.
Proof.
  intros Hid. revert vis w.
  induction hs as [|h0 hs IH]; intros vis w Hscan; simpl in Hscan.
  { by simplify_eq. }
  destruct (vis !! h0); [by apply IH in Hscan|].
  destruct (negb _); [by simplify_eq|].
  destruct traverseSolidEntryPoints; [simplify_eq; simpl; by rewrite Hid|].
  apply IH in Hscan. simpl in Hscan. by rewrite Hid in Hscan.
Qed.

End Scan.

Lemma elem_of_released h (forces : list bool) e :
  e ∈ rev (EvRelease h <$> forces) -> exists force, e = EvRelease h force.
Proof.
  rewrite list_elem_of_In, <- in_rev, <- list_elem_of_In.
  intros (f & -> & _)%list_elem_of_fmap. by exists f.
Qed.

Lemma tally_released p h (forces : list bool) :
  (forall force, p (EvRelease h force) = false) ->
  tally p (rev (EvRelease h <$> forces)) = 0.
Proof.
  intros Hp. apply tally_none. intros e [f ->]%elem_of_released. apply Hp.
Qed.

Lemma tally_reported h (reported : list Hash) :
  NoDup reported ->
  tally (isSolidEntryPoint h) (EvSolidEntryPoint <$> reported)
    = if decide (h ∈ reported) then 1 else 0.
Proof.
  induction 1 as [|h0 reported Hnotin Hnd IH]; [done|].
  rewrite fmap_cons. cbn [tally isSolidEntryPoint]. rewrite IH. destruct (decide (h0 = h)) as [->|Hne].
  - rewrite bool_decide_eq_true_2 by done.
    rewrite decide_False by done. rewrite decide_True by (by left). done.
  - rewrite bool_decide_eq_false_2 by done.
    destruct (decide (h ∈ reported)).
    + rewrite decide_True by (by right). done.
    + rewrite decide_False; [done|]. intros [?|?]%elem_of_cons; congruence.
Qed.

Lemma tally_reported_other p (reported : list Hash) :
  (forall h, p (EvSolidEntryPoint h) = false) ->
  tally p (EvSolidEntryPoint <$> reported) = 0.
Proof.
  intros Hp. apply tally_none. intros e (h & -> & _)%list_elem_of_fmap. apply Hp.
Qed.

Lemma eachAfter_others P evs1 evs2 :
  (forall e older, isConsumer e = false -> P e older) ->
  (forall e, e ∈ evs1 -> isConsumer e = false) ->
  eachAfter P evs2 -> eachAfter P (evs1 ++ evs2).
Proof.
  intros HP H1 H2. apply eachAfter_app; [|done].
  intros newer e older ->. apply HP, H1. apply elem_of_app. right. by left.
Qed.

Lemma chain_tail `{Tangle} x below : chain (x :: below) -> chain below.
Proof. destruct below; simpl; tauto. Qed.

(** The elements below the top of a chain have the top in their past cone. *)
Lemma chain_reaches `{Tangle} x below y :
  chain (x :: below) -> y ∈ below -> tc approvee y x.
Proof.
  revert x. induction below as [|z below IH]; intros x Hc Hy.
  { by apply elem_of_nil in Hy. }
  destruct Hc as [Hzx Hc].
  apply elem_of_cons in Hy as [->|Hy].
  - by apply tc_once.
  - eapply tc_r; [|done]. by apply IH.
Qed.

Ltac in_log :=
  repeat match goal with
  | H : _ ∈ _ ++ _ |- _ => apply elem_of_app in H as [H|H]
  | H : _ ∈ rev (EvRelease _ <$> _) |- _ => apply elem_of_released in H as [? H]
  | H : _ ∈ EvSolidEntryPoint <$> _ |- _ =>
      let Hin := fresh "Hin" in apply list_elem_of_fmap in H as (? & H & Hin)
  | H : _ ∈ _ :: _ |- _ => apply elem_of_cons in H as [H|H]
  | H : _ ∈ [] |- _ => by apply elem_of_nil in H
  | H : @eq Event _ _ |- _ => progress simplify_eq
  end.

Lemma settled_mono `{Tangle} t a evs evs' :
  settled t a evs -> (forall e, e ∈ evs -> e ∈ evs') -> settled t a evs'.
Proof.
  intros [[e ?]|[[e ?]|[?|(? & ? & ?)]]] Hsub.
  - left. exists e. auto.
  - right; left. exists e. auto.
  - right; right; left. unfold excluded. auto.
  - right; right; right. split_and!; auto.
Qed.

Section Preservation.
Context `{Tangle} {S : Type}.
Context (condition : Predicate S) (consumer : Consumer S)
        (onMissingApprovee : OnMissingApprovee S)
        (onSolidEntryPoint : OnSolidEntryPoint S)
        (forceRelease traverseSolidEntryPoints : bool)
        (abortSignal : AbortSignal) (startTxHash : Hash).

Local Abbreviation Inv := (ApproveesInv startTxHash traverseSolidEntryPoints).

Lemma inv_unchanged r (st st' : ApproveesState S) :
  stack st' = stack st -> visited st' = visited st ->
  events (world st') = events (world st) ->
  Inv None st -> Inv r st'.
Proof.
  intros Hs Hv He [Hchain Htrue Hfalse Hmemo Hstored Hrun Hc1 Hrep Hrep1 Horig Hset Hbnd].
  split; rewrite ?Hs, ?Hv, ?He; eauto.
Qed.

Lemma inv_missing (st : ApproveesState S) w cur rest s' err :
  selectAbort abortSignal (world st) = (false, w) ->
  stack st = cur :: rest ->
  GetCachedTransactionOrNil cur = None ->
  Inv None st ->
  Inv err (mkApprovees rest (<[cur := false]> (visited st))
             (emit (EvMissing cur err) (setCaller s' w))).
Proof.
  intros (Hw & _)%selectAbort_world Hstack Hget
    [Hchain Htrue Hfalse Hmemo Hstored Hrun Hc1 Hrep Hrep1 Horig Hset Hbnd].
  rewrite Hstack in *.
  split; simpl; rewrite ?Hw.
  - by eapply chain_tail.
  - intros h Hh. destruct (decide (h = cur)) as [->|Hne].
    { by rewrite lookup_insert_eq in Hh. }
    rewrite lookup_insert_ne in Hh by done.
    destruct (Htrue h Hh) as [Hin|[e He]].
    + left. in_log; done.
    + right. exists e. by right.
  - intros h Hh. destruct (decide (h = cur)) as [->|Hne].
    { left. exists err. by left. }
    rewrite lookup_insert_ne in Hh by done.
    destruct (Hfalse h Hh) as [[e He]|[He|(? & ? & He)]].
    + left. exists e. by right.
    + right; left. by right.
    + right; right. split_and!; try done. by right.
  - intros h b Hin. in_log.
    destruct (decide (h = cur)) as [->|Hne].
    { destruct (Hstored _ _ _ Hin) as [? ?]. congruence. }
    rewrite lookup_insert_ne by done. eauto.
  - intros h b e Hin. in_log. eauto.
  - intros _ h b e Hin. in_log. eauto.
  - intros h. specialize (Hc1 h). simpl. lia.
  - intros h Hin. in_log.
    destruct (decide (h = cur)) as [->|Hne].
    { left. by rewrite lookup_insert_eq. }
    rewrite lookup_insert_ne by done.
    destruct (Hrep h Hin) as [?|?]; [by left|]. simplify_eq/=.
  - intros h. specialize (Hrep1 h). simpl. lia.
  - intros h Hh Hsep.
    destruct (Horig h) as [?|?]; [ | done | by left | right; by right].
    destruct (decide (h = cur)) as [->|Hne]; [right; by left|].
    rewrite lookup_insert_ne in Hh by done.
    destruct Hh as [?|?]; [by left | right; by right].
  - intros Hac. split; [done | auto].
  - split; [done | auto].
Qed.

Lemma inv_neutral r (st st' : ApproveesState S) added :
  stack st' = stack st -> visited st' = visited st ->
  events (world st') = added ++ events (world st) ->
  (forall e, e ∈ added -> neutral e = true) ->
  Inv r st -> Inv r st'.
Proof.
  intros Hs Hv He Hadded
    [Hchain Htrue Hfalse Hmemo Hstored Hrun Hc1 Hrep Hrep1 Horig Hset Hbnd].
  assert (Hold : forall e, neutral e = false -> e ∈ added ++ events (world st) ->
                   e ∈ events (world st)).
  { intros e Hn [Hin|Hin]%elem_of_app; [|done].
    apply Hadded in Hin. congruence. }
  assert (Htally : forall p, (forall e, neutral e = true -> p e = false) ->
                   tally p (added ++ events (world st)) = tally p (events (world st))).
  { intros p Hp. rewrite tally_app, tally_none; [done|]. auto. }
  split; rewrite ?Hs, ?Hv, ?He.
  - done.
  - intros h Hh. destruct (Htrue h Hh) as [?|[e ?]]; [by left|].
    right. exists e. apply elem_of_app. by right.
  - intros h Hh.
    destruct (Hfalse h Hh) as [[e He']|[He'|(? & ? & He')]].
    + left. exists e. apply elem_of_app. by right.
    + right; left. apply elem_of_app. by right.
    + right; right. split_and!; try done. apply elem_of_app. by right.
  - intros h b Hin%Hold; eauto.
  - intros h b e Hin%Hold; eauto.
  - intros Hr h b e Hin%Hold; eauto.
  - intros h. rewrite Htally; [done|]. by intros [].
  - intros h Hin%Hold; eauto.
  - intros h. rewrite Htally; [done|]. by intros [].
  - intros h Hh Hsep. destruct (Horig h Hh Hsep) as [?|?]; [by left|].
    right. apply elem_of_app. by right.
  - intros Hac. apply eachAfter_others; auto.
    + by intros [].
    + intros e Hin%Hadded. by destruct e.
  - apply eachAfter_others; auto.
    + by intros [].
    + intros e Hin%Hadded. by destruct e.
Qed.

Lemma inv_emit r stk vis (w : World S) e :
  neutral e = true ->
  Inv r (mkApprovees stk vis w) -> Inv r (mkApprovees stk vis (emit e w)).
Proof.
  intros He. apply (inv_neutral r _ _ [e]); try done.
  by intros e' ->%list_elem_of_singleton.
Qed.

Lemma inv_weaken r (st : ApproveesState S) : Inv None st -> Inv r st.
Proof. apply inv_unchanged; done. Qed.

Lemma inv_condition cur rest vis (w : World S) tx w1 traverse e :
  Inv None (mkApprovees (cur :: rest) vis w) ->
  vis !! cur = None ->
  GetCachedTransactionOrNil cur = Some tx ->
  callCondition condition cur tx w = (w1, (traverse, e)) ->
  Inv e (mkApprovees (cur :: rest)
           (match e with Some _ => vis | None => <[cur := traverse]> vis end) w1).
Proof.
  intros [Hchain Htrue Hfalse Hmemo Hstored Hrun Hc1 Hrep Hrep1 Horig Hset Hbnd]
    Hcur Hget (Hev & _)%callCondition_events.
  simpl in *.
  assert (Hnever : forall b e', EvCondition cur b e' ∉ events w).
  { intros b e' Hin. pose proof (Hrun eq_refl _ _ _ Hin) as ->.
    apply Hmemo in Hin. congruence. }
  assert (Hmono : forall h b, vis !! h = Some b ->
            (match e with Some _ => vis | None => <[cur := traverse]> vis end) !! h = Some b).
  { intros h b Hh. destruct e; [done|].
    rewrite lookup_insert_ne; [done|]. intros <-. congruence. }
  split; simpl; rewrite ?Hev.
  - done.
  - intros h Hh. destruct (decide (h = cur)) as [->|Hne]; [left; by left|].
    assert (vis !! h = Some true) as Hh'.
    { destruct e; [done|]. by rewrite lookup_insert_ne in Hh. }
    destruct (Htrue h Hh') as [?|[e' ?]]; [by left|].
    right. exists e'. right. apply elem_of_app. right. by right.
  - intros h Hh. destruct (decide (h = cur)) as [->|Hne].
    { destruct e; [congruence|]. rewrite lookup_insert_eq in Hh.
      simplify_eq. right; left. by left. }
    assert (vis !! h = Some false) as Hh'.
    { destruct e; [done|]. by rewrite lookup_insert_ne in Hh. }
    destruct (Hfalse h Hh') as [[e' He']|[He'|(? & ? & He')]].
    + left. exists e'. right. apply elem_of_app. right. by right.
    + right; left. right. apply elem_of_app. right. by right.
    + right; right. split_and!; try done.
      right. apply elem_of_app. right. by right.
  - intros h b Hin. in_log.
    + by rewrite lookup_insert_eq.
    + eauto.
  - intros h b e' Hin. in_log; eauto.
  - intros -> h b e' Hin. in_log; eauto.
  - intros h. cbn [tally]. rewrite tally_app, tally_released by done.
    cbn [tally isCondition]. case_bool_decide as Hh; [subst h|].
    + rewrite (tally_none _ (events w)); [lia|].
      intros [] Hin; try done. simpl. apply bool_decide_eq_false_2.
      intros ->. by eapply Hnever.
    + specialize (Hc1 h). lia.
  - intros h Hin. in_log. destruct (Hrep h Hin) as [[b Hb]|?]; [|by right].
    left. exists b. by apply Hmono.
  - intros h. cbn [tally]. rewrite tally_app, tally_released by done.
    cbn [tally isSolidEntryPoint]. specialize (Hrep1 h). lia.
  - intros h Hh Hsep.
    destruct (Horig h) as [?|?]; [ | done | by left | ].
    + destruct Hh as [[b Hb]|?]; [|by right].
      destruct (decide (h = cur)) as [->|Hne]; [right; by left|].
      left. exists b. destruct e; [done|]. by rewrite lookup_insert_ne in Hb.
    + right. right. apply elem_of_app. right. by right.
  - intros Hac.
    replace (EvCondition cur traverse e :: _) with
      ((EvCondition cur traverse e
         :: rev (EvRelease cur <$> released (condition tx (caller w)))
         ++ [EvRetain cur]) ++ events w)
      by (simpl; by rewrite <- app_assoc).
    apply eachAfter_others; auto.
    + by intros [].
    + intros e' Hin. in_log; done.
  - replace (EvCondition cur traverse e :: _) with
      ((EvCondition cur traverse e
         :: rev (EvRelease cur <$> released (condition tx (caller w)))
         ++ [EvRetain cur]) ++ events w)
      by (simpl; by rewrite <- app_assoc).
    apply eachAfter_others; auto.
    + by intros [].
    + intros e' Hin. in_log; done.
Qed.

Lemma inv_pop r cur rest vis (w : World S) :
  Inv r (mkApprovees (cur :: rest) vis w) ->
  vis !! cur = Some false ->
  Inv r (mkApprovees rest vis w).
Proof.
  intros [Hchain Htrue Hfalse Hmemo Hstored Hrun Hc1 Hrep Hrep1 Horig Hset Hbnd]
    Hcur.
  simpl in *. split; simpl; try done.
  - by eapply chain_tail.
  - intros h Hh. destruct (Htrue h Hh) as [Hin|?]; [|by right].
    left. in_log; [congruence | done].
  - intros h Hin. destruct (Hrep h Hin) as [?|?]; [by left|].
    simplify_eq. left. by eexists.
  - intros h [?|?] Hsep; apply Horig; auto. right. by right.
Qed.

Lemma inv_scan cur rest vis (w : World S) tx r vis2 w2 :
  Inv None (mkApprovees (cur :: rest) vis w) ->
  is_Some (vis !! cur) ->
  GetCachedTransactionOrNil cur = Some tx ->
  scanApprovees onSolidEntryPoint traverseSolidEntryPoints
    (approveeHashes tx) vis w = (r, vis2, w2) ->
  Inv None (mkApprovees
              (match r with Some a => a :: cur :: rest | None => cur :: rest end)
              vis2 w2)
  /\ (r = None -> forall a, a ∈ approveeHashes tx -> is_Some (vis2 !! a))
  /\ (forall h b, vis !! h = Some b -> vis2 !! h = Some b).
Proof.
  intros [Hchain Htrue Hfalse Hmemo Hstored Hrun Hc1 Hrep Hrep1 Horig Hset Hbnd]
    Hcur Hget (reported & Hev & _ & Hnd & Hreported & Hvis & Hr)%scanApprovees_spec.
  simpl in *.
  assert (Hmono : forall h b, vis !! h = Some b -> vis2 !! h = Some b).
  { intros h b Hh. destruct (Hvis h) as [->|(? & _)]; congruence. }
  assert (Hstack : forall h, h ∈ cur :: rest ->
            h ∈ match r with Some a => a :: cur :: rest | None => cur :: rest end).
  { intros h Hh. destruct r; [by right | done]. }
  split; [|split; [by intros -> | done]].
  split; simpl; rewrite ?Hev.
  - destruct r as [a|]; [|done]. split; [|done].
    exists tx. by destruct Hr as (? & _).
  - intros h Hh. destruct (Hvis h) as [Heq|(_ & ? & _)]; [|congruence].
    rewrite Heq in Hh. destruct (Htrue h Hh) as [?|[e ?]]; [left; auto|].
    right. exists e. apply elem_of_app. by right.
  - intros h Hh. destruct (Hvis h) as [Heq|(_ & _ & ? & Hin)].
    + rewrite Heq in Hh.
      destruct (Hfalse h Hh) as [[e He']|[He'|(? & ? & He')]].
      * left. exists e. apply elem_of_app. by right.
      * right; left. apply elem_of_app. by right.
      * right; right. split_and!; try done. apply elem_of_app. by right.
    + right; right. destruct (Hreported h Hin) as (_ & _ & ? & _).
      split_and!; try done. apply elem_of_app. left.
      by apply list_elem_of_fmap_2.
  - intros h b Hin. in_log. eauto.
  - intros h b e Hin. in_log. eauto.
  - intros _ h b e Hin. in_log. eauto.
  - intros h. rewrite tally_app, tally_reported_other by done. apply Hc1.
  - intros h Hin. in_log.
    + destruct (Hreported _ Hin0) as (_ & _ & _ & [[_ ?]|[_ ->]]).
      * left. by eexists.
      * by right.
    + destruct (Hrep h Hin) as [[b Hb]|?].
      * left. exists b. auto.
      * simplify_eq. left. destruct Hcur as [b Hb]. exists b. auto.
  - intros h. rewrite tally_app, tally_reported by done.
    case_decide as Hin; [|apply Hrep1].
    destruct (Hreported h Hin) as (_ & Hnone & _).
    rewrite (tally_none _ (events w)); [lia|].
    intros [] Hin'; try done. simpl. apply bool_decide_eq_false_2. intros ->.
    destruct (Hrep h Hin') as [[? ?]|?]; [congruence|].
    simplify_eq. destruct Hcur. congruence.
  - intros h Hh Hsep.
    assert (Hnew : h ∈ reported -> h = startTxHash \/
              EvSolidEntryPoint h ∈ (EvSolidEntryPoint <$> reported) ++ events w).
    { intros Hin. right. apply elem_of_app. left. by apply list_elem_of_fmap_2. }
    assert (Hold : is_Some (vis !! h) \/ h ∈ cur :: rest -> h = startTxHash \/
              EvSolidEntryPoint h ∈ (EvSolidEntryPoint <$> reported) ++ events w).
    { intros Hh'. destruct (Horig h Hh' Hsep) as [?|?]; [by left|].
      right. apply elem_of_app. by right. }
    destruct Hh as [[b Hb]|Hh].
    + destruct (Hvis h) as [Heq|(_ & _ & _ & ?)]; [|auto].
      apply Hold. left. rewrite <- Heq. by eexists.
    + destruct r as [a|]; [|auto].
      apply elem_of_cons in Hh as [->|Hh]; [|auto].
      destruct Hr as (_ & _ & Hsa). destruct (Hsa Hsep). auto.
  - intros Hac. apply eachAfter_others; auto.
    + by intros [].
    + intros e Hin. in_log. done.
  - apply eachAfter_others; auto.
    + by intros [].
    + intros e Hin. in_log. done.
Qed.

Lemma inv_consumed cur rest vis (w : World S) tx w3 err :
  Inv None (mkApprovees (cur :: rest) vis w) ->
  vis !! cur = Some true ->
  GetCachedTransactionOrNil cur = Some tx ->
  (forall a, a ∈ approveeHashes tx -> is_Some (vis !! a)) ->
  callConsumer consumer cur tx w = (w3, err) ->
  Inv err (mkApprovees rest vis w3).
Proof.
  intros [Hchain Htrue Hfalse Hmemo Hstored Hrun Hc1 Hrep Hrep1 Horig Hset Hbnd]
    Hcur Hget Hall (Hev & _)%callConsumer_events.
  simpl in *.
  set (rels := rev (EvRelease cur <$> released (consumer tx (caller w)))) in *.
  assert (Hsub : forall e, e ∈ events w -> e ∈ rels ++ EvRetain cur :: events w).
  { intros e He. apply elem_of_app. right. by right. }
  split; simpl; rewrite ?Hev.
  - by eapply chain_tail.
  - intros h Hh. destruct (Htrue h Hh) as [Hin|[e He]].
    + apply elem_of_cons in Hin as [->|Hin]; [|by left].
      right. exists err. by left.
    + right. exists e. right. auto.
  - intros h Hh.
    pose proof (Hfalse h Hh) as Hs.
    assert (settled traverseSolidEntryPoints h
              (EvConsumer cur err :: rels ++ EvRetain cur :: events w)) as Hs'.
    { eapply settled_mono; [by right|]. intros e He. right. auto. }
    destruct Hs' as [[e He]|?]; [|done].
    destruct Hs as [[e' He']|[He'|(? & ? & He')]].
    + left. exists e'. right. auto.
    + right; left. right. auto.
    + right; right. split_and!; try done. right. auto.
  - intros h b Hin. unfold rels in Hin. in_log. eauto.
  - intros h b e Hin. unfold rels in Hin. in_log. eauto.
  - intros _ h b e Hin. unfold rels in Hin. in_log. eauto.
  - intros h. cbn [tally]. unfold rels. rewrite tally_app, tally_released by done.
    cbn [tally isCondition]. specialize (Hc1 h). lia.
  - intros h Hin. unfold rels in Hin. in_log.
    destruct (Hrep h Hin) as [?|?]; [by left|].
    simplify_eq. left. by eexists.
  - intros h. cbn [tally]. unfold rels. rewrite tally_app, tally_released by done.
    cbn [tally isSolidEntryPoint]. specialize (Hrep1 h). lia.
  - intros h Hh Hsep. destruct (Horig h) as [?|?]; [ | done | by left | ].
    + destruct Hh as [?|?]; [by left | right; by right].
    + right. right. auto.
  - intros Hac. split.
    + intros a (tx' & Hget' & Ha). simplify_eq.
      destruct (Hall a Ha) as [[|] Hb].
      * destruct (Htrue a Hb) as [Hin|[e He]].
        -- exfalso. apply (Hac cur).
           apply elem_of_cons in Hin as [->|Hin].
           ++ apply tc_once. by exists tx.
           ++ eapply tc_l; [by exists tx|]. by eapply chain_reaches.
        -- left. exists e. auto.
      * eapply settled_mono; [|exact Hsub]. right. auto.
    + replace (rels ++ EvRetain cur :: events w)
        with ((rels ++ [EvRetain cur]) ++ events w)
        by (by rewrite <- app_assoc).
      apply eachAfter_others; auto.
      * by intros [].
      * intros e Hin. unfold rels in Hin. in_log; done.
  - split.
    + intros a (tx' & Hget' & Ha) Hsep Hne. simplify_eq.
      destruct (Horig a) as [?|?]; [left; auto | done | done | auto].
    + replace (rels ++ EvRetain cur :: events w)
        with ((rels ++ [EvRetain cur]) ++ events w)
        by (by rewrite <- app_assoc).
      apply eachAfter_others; auto.
      * by intros [].
      * intros e Hin. unfold rels in Hin. in_log; done.
Qed.

Lemma inv_checked cur rest vis (w : World S) tx w1 vis1 traverse :
  Inv None (mkApprovees (cur :: rest) vis w) ->
  GetCachedTransactionOrNil cur = Some tx ->
  Checked condition cur tx vis w w1 vis1 traverse ->
  Inv None (mkApprovees (cur :: rest) vis1 w1) /\ vis1 !! cur = Some traverse.
Proof.
  intros Hinv Hget Hchk.
  destruct Hchk as [t Hcur|w1' t Hcur Hcond]; [done|].
  split; [|by rewrite lookup_insert_eq].
  exact (inv_condition _ _ _ _ _ _ _ None Hinv Hcur Hget Hcond).
Qed.

(** One step of the loop keeps the invariant. *)
Lemma inv_step (st st' : ApproveesState S) r :
  Inv None st ->
  ApproveesStep condition consumer onMissingApprovee onSolidEntryPoint
    forceRelease traverseSolidEntryPoints abortSignal st st' r ->
  Inv r st'.
Proof.
  intros Hinv Hstep.
  assert (Hacq : forall w cur rest,
            selectAbort abortSignal (world st) = (false, w) ->
            stack st = cur :: rest ->
            Inv None (mkApprovees (cur :: rest) (visited st)
                        (emit (EvAcquire cur) w))).
  { intros w cur rest (Hw & _)%selectAbort_world Hstack.
    apply (inv_neutral None st _ [EvAcquire cur]); simpl; try done.
    - by rewrite Hw.
    - by intros e ->%list_elem_of_singleton. }
  destruct Hstep as
    [ w Hsel
    | w Hsel Hstack
    | w cur rest s' err Hsel Hstack Hget Hmiss
    | w cur rest tx w1 traverse e Hsel Hstack Hget Hcur Hcond
    | w cur rest tx w1 vis1 Hsel Hstack Hget Hchk
    | w cur rest tx w1 vis1 a vis2 w2 Hsel Hstack Hget Hchk Hscan
    | w cur rest tx w1 vis1 vis2 w2 w3 err Hsel Hstack Hget Hchk Hscan Hcons ].
  - apply selectAbort_world in Hsel as (Hw & _).
    by apply (inv_unchanged _ st).
  - apply selectAbort_world in Hsel as (Hw & _).
    by apply (inv_unchanged _ st).
  - by eapply inv_missing.
  - apply inv_emit; [done|].
    exact (inv_condition _ _ _ _ _ _ _ (Some e)
             (Hacq _ _ _ Hsel Hstack) Hcur Hget Hcond).
  - destruct (inv_checked _ _ _ _ _ _ _ _ (Hacq _ _ _ Hsel Hstack) Hget Hchk)
      as [Hinv1 Hcur1].
    apply inv_emit; [done|]. by apply (inv_pop _ cur).
  - destruct (inv_checked _ _ _ _ _ _ _ _ (Hacq _ _ _ Hsel Hstack) Hget Hchk)
      as [Hinv1 Hcur1].
    destruct (inv_scan _ _ _ _ _ _ _ _ Hinv1 (mk_is_Some _ _ Hcur1) Hget Hscan)
      as (Hinv2 & _ & _).
    by do 2 (apply inv_emit; [done|]).
  - destruct (inv_checked _ _ _ _ _ _ _ _ (Hacq _ _ _ Hsel Hstack) Hget Hchk)
      as [Hinv1 Hcur1].
    destruct (inv_scan _ _ _ _ _ _ _ _ Hinv1 (mk_is_Some _ _ Hcur1) Hget Hscan)
      as (Hinv2 & Hall & Hmono).
    apply inv_emit; [done|]. eapply inv_consumed; eauto.
Qed.

End Preservation.

Section ApproveesLoop.
Context `{Tangle} {S : Type}.
Context (condition : Predicate S) (consumer : Consumer S)
        (onMissingApprovee : OnMissingApprovee S)
        (onSolidEntryPoint : OnSolidEntryPoint S)
        (forceRelease traverseSolidEntryPoints : bool)
        (abortSignal : AbortSignal) (startTxHash : Hash).

Local Abbreviation Inv := (ApproveesInv startTxHash traverseSolidEntryPoints).

(** The invariant holds when the loop is entered. *)
Lemma inv_initial (s0 : S) :
  Inv None (mkApprovees [startTxHash] ∅ (mkWorld s0 [EvPush startTxHash] 0)).
Proof.
  split; simpl; try done.
  - intros h b Hin. in_log.
  - intros h b e Hin. in_log.
  - intros _ h b e Hin. in_log.
  - intros h. lia.
  - intros h Hin. in_log.
  - intros h. lia.
  - intros h [[b Hb]|Hin] _; [done|]. left. by apply list_elem_of_singleton.
Qed.

(** The invariant holds wherever the loop stops. *)
Lemma loopApprovees_inv fuel (st : ApproveesState S) :
  Inv None st ->
  exists r, Inv r (reached (loopApprovees condition consumer onMissingApprovee
                    onSolidEntryPoint forceRelease traverseSolidEntryPoints
                    abortSignal fuel st)).
Proof.
  revert st. induction fuel as [|fuel IH]; intros st Hinv; simpl.
  { destruct (stack st); by exists None. }
  destruct (stack st) eqn:Hstack; [by exists None|].
  destruct (processStackApprovees _ _ _ _ _ _ _ st) as [st' [e|]] eqn:Hstep;
    apply processStackApprovees_path in Hstep;
    pose proof (inv_step _ _ _ _ _ _ _ _ _ _ _ Hinv Hstep) as Hinv'.
  - by exists (Some e).
  - by apply IH.
Qed.

Lemma TraverseApprovees_inv fuel (s0 : S) :
  exists r, Inv r (reached (TraverseApprovees startTxHash condition consumer
                    onMissingApprovee onSolidEntryPoint forceRelease
                    traverseSolidEntryPoints abortSignal fuel s0)).
Proof. apply loopApprovees_inv, inv_initial. Qed.

End ApproveesLoop.

(** ** Approvee traversal: order of consumption, memoized predicate,
       solid entry points *)

Lemma ranked_acyclic `{Tangle} (rank : Hash -> nat) :
  (forall x a, approvee x a -> rank a < rank x) -> Acyclic.
Proof.
  intros Hrank x Hx.
  assert (Hlt : forall y z, tc approvee y z -> rank z < rank y).
  { induction 1 as [y z Hyz|y z z' Hyz _ IH].
    - by apply Hrank.
    - apply Hrank in Hyz. lia. }
  apply Hlt in Hx. lia.
Qed.

Lemma tangleOf_approvee txs solidEntryPoints approvers x a :
  @approvee (tangleOf txs solidEntryPoints approvers) x a ->
  exists tx, tx ∈ txs /\ GetTxHash tx = x /\ a ∈ approveeHashes tx.
Proof.
  intros (tx & Hget & Ha). simpl in Hget.
  apply find_some in Hget as [Hin Heq].
  exists tx. split_and!; [by apply list_elem_of_In | | done].
  by apply String.eqb_eq.
Qed.

(** A list of transactions whose approvees all have a smaller rank is an
    acyclic tangle. *)
Lemma tangleOf_acyclic txs solidEntryPoints approvers (rank : Hash -> nat) :
  Forall (fun tx => Forall (fun a => rank a < rank (GetTxHash tx))
                      (approveeHashes tx)) txs ->
  @Acyclic (tangleOf txs solidEntryPoints approvers).
Proof.
  intros Hall. apply (ranked_acyclic rank).
  intros x a (tx & Hin & <- & Ha)%tangleOf_approvee.
  rewrite Forall_forall in Hall. specialize (Hall tx Hin).
  rewrite Forall_forall in Hall. by apply Hall.
Qed.

Lemma chainABC_acyclic : @Acyclic chainABC.
Proof.
  apply (tangleOf_acyclic _ _ _ (fun h =>
    if String.eqb h "A" then 3 else if String.eqb h "B" then 2
    else if String.eqb h "C" then 1 else 0)).
  vm_compute. repeat constructor.
Qed.

(** C1. On an acyclic tangle, wherever an approvee traversal has got to (in
    particular when it has returned [nil]), every invocation of the consumer
    on a node comes after each approvee of the node (the trunk, and the
    branch when distinct) was settled: consumed, found missing, excluded by
    the predicate, or reported as a solid entry point that is not
    traversed. *)
Theorem TraverseApprovees_consumes_after_approvees `{Tangle} {S : Type}
    (startTxHash : Hash) (condition : Predicate S) (consumer : Consumer S)
    (onMissingApprovee : OnMissingApprovee S)
    (onSolidEntryPoint : OnSolidEntryPoint S)
    (forceRelease traverseSolidEntryPoints : bool) (abortSignal : AbortSignal)
    (fuel : nat) (s0 : S) :
  Acyclic ->
  forall newer x err older,
    events (world (reached (TraverseApprovees startTxHash condition consumer
      onMissingApprovee onSolidEntryPoint forceRelease traverseSolidEntryPoints
      abortSignal fuel s0))) = newer ++ EvConsumer x err :: older ->
    forall a, approvee x a -> settled traverseSolidEntryPoints a older.
Proof.
  intros Hac newer x err older Hlog a Ha.
  destruct (TraverseApprovees_inv condition consumer onMissingApprovee
              onSolidEntryPoint forceRelease traverseSolidEntryPoints
              abortSignal startTxHash fuel s0) as [r Hinv].
  pose proof (inv_settled _ _ _ _ Hinv Hac) as Hall.
  rewrite Hlog in Hall. apply eachAfter_split in Hall. by apply Hall.
Qed.

Lemma TraverseApprovees_consumes_after_approvees_witness :
  @settled chainABC false "B"%string
    [EvRelease "A" false; EvRetain "A"; EvAcquire "A"; EvRelease "B" false;
     EvConsumer "B" None; EvRelease "B" false; EvRetain "B";
     EvAcquire "B"; EvRelease "C" false; EvConsumer "C" None;
     EvRelease "C" false; EvRetain "C"; EvAcquire "C";
     EvMissing "D" None; EvRelease "C" false; EvPush "D";
     EvCondition "C" true None; EvRelease "C" false;
     EvRetain "C"; EvAcquire "C"; EvRelease "B" false;
     EvPush "C"; EvCondition "B" true None; EvRelease "B" false;
     EvRetain "B"; EvAcquire "B"; EvRelease "A" false;
     EvPush "B"; EvCondition "A" true None; EvRelease "A" false;
     EvRetain "A"; EvAcquire "A"; EvPush "A"]%string.
Proof.
  apply (@TraverseApprovees_consumes_after_approvees chainABC unit "A"%string
           acceptAll consumeAll ignoreMissing ignoreSolidEntryPoint false false
           None 20 tt chainABC_acyclic
           [EvRelease "A" false]%string "A"%string None).
  - vm_compute. reflexivity.
  - exists (mkTransaction "A" "B" "B" false). split; [reflexivity|].
    vm_compute. left.
Defined.

(** A step on a memoized identifier does not invoke the predicate. *)
Lemma memoized_step_no_condition `{Tangle} {S : Type}
    (condition : Predicate S) (consumer : Consumer S)
    (onMissingApprovee : OnMissingApprovee S)
    (onSolidEntryPoint : OnSolidEntryPoint S)
    (forceRelease traverseSolidEntryPoints : bool) (abortSignal : AbortSignal)
    (st st' : ApproveesState S) r cur rest b :
  ApproveesStep condition consumer onMissingApprovee onSolidEntryPoint
    forceRelease traverseSolidEntryPoints abortSignal st st' r ->
  stack st = cur :: rest -> visited st !! cur = Some b ->
  tally isAnyCondition (events (world st'))
    = tally isAnyCondition (events (world st)).
Proof.
  intros Hstep Hstack Hvis.
  assert (Hchk : forall tx w w1 vis1 t,
            Checked condition cur tx (visited st) w w1 vis1 t ->
            w1 = w /\ vis1 = visited st).
  { intros tx w w1 vis1 t [t' ?|w1' t' Hnone ?]; [done | congruence]. }
  destruct Hstep as
    [ w Hsel
    | w Hsel Hstack'
    | w cur' rest' s' err Hsel Hstack' Hget Hmiss
    | w cur' rest' tx w1 traverse e Hsel Hstack' Hget Hcur Hcond
    | w cur' rest' tx w1 vis1 Hsel Hstack' Hget Hchk'
    | w cur' rest' tx w1 vis1 a vis2 w2 Hsel Hstack' Hget Hchk' Hscan
    | w cur' rest' tx w1 vis1 vis2 w2 w3 err Hsel Hstack' Hget Hchk' Hscan Hcons ];
    apply selectAbort_world in Hsel as (Hw & _); simpl; rewrite <- ?Hw;
    try done; rewrite Hstack in Hstack'; simplify_eq.
  - apply Hchk in Hchk' as [-> ->]. done.
  - apply Hchk in Hchk' as [-> ->].
    apply scanApprovees_spec in Hscan as (reported & -> & _).
    simpl. rewrite tally_app, tally_reported_other by done. done.
  - apply Hchk in Hchk' as [-> ->].
    apply scanApprovees_spec in Hscan as (reported & Hev & _).
    apply callConsumer_events in Hcons as (-> & _).
    rewrite Hev. simpl.
    rewrite tally_app, tally_released by done. simpl.
    rewrite tally_app, tally_reported_other by done. done.
Qed.

(** C2. During one call of [TraverseApprovees] the predicate is invoked at
    most once per identifier; its result is memoized in [visited]; and a
    step whose front identifier is memoized does not invoke the predicate:
    the step is the same whatever the predicate is, and adds no predicate
    invocation to the log. *)
Theorem TraverseApprovees_condition_once `{Tangle} {S : Type}
    (startTxHash : Hash) (condition : Predicate S) (consumer : Consumer S)
    (onMissingApprovee : OnMissingApprovee S)
    (onSolidEntryPoint : OnSolidEntryPoint S)
    (forceRelease traverseSolidEntryPoints : bool) (abortSignal : AbortSignal)
    (fuel : nat) (s0 : S) :
  let st := reached (TraverseApprovees startTxHash condition consumer
              onMissingApprovee onSolidEntryPoint forceRelease
              traverseSolidEntryPoints abortSignal fuel s0) in
  (forall h, tally (isCondition h) (events (world st)) <= 1)
  /\ (forall h b, EvCondition h b None ∈ events (world st) ->
        visited st !! h = Some b)
  /\ (forall (st1 : ApproveesState S) cur rest b,
        stack st1 = cur :: rest -> visited st1 !! cur = Some b ->
        (forall condition' : Predicate S,
           processStackApprovees condition' consumer onMissingApprovee
             onSolidEntryPoint forceRelease traverseSolidEntryPoints
             abortSignal st1
           = processStackApprovees condition consumer onMissingApprovee
               onSolidEntryPoint forceRelease traverseSolidEntryPoints
               abortSignal st1)
        /\ tally isAnyCondition
             (events (world (fst (processStackApprovees condition consumer
                onMissingApprovee onSolidEntryPoint forceRelease
                traverseSolidEntryPoints abortSignal st1))))
           = tally isAnyCondition (events (world st1))).
Proof.
  intros st.
  destruct (TraverseApprovees_inv condition consumer onMissingApprovee
              onSolidEntryPoint forceRelease traverseSolidEntryPoints
              abortSignal startTxHash fuel s0) as [r Hinv].
  fold st in Hinv. split_and!.
  - apply (inv_condition_once _ _ _ _ Hinv).
  - apply (inv_memo _ _ _ _ Hinv).
  - intros st1 cur rest b Hstack Hvis. split.
    + intros condition'. unfold processStackApprovees, processCachedApprovees.
      destruct (selectAbort abortSignal (world st1)) as [[|] w]; [done|].
      rewrite Hstack. destruct (GetCachedTransactionOrNil cur); [|done].
      by rewrite Hvis.
    + destruct (processStackApprovees condition consumer onMissingApprovee
                  onSolidEntryPoint forceRelease traverseSolidEntryPoints
                  abortSignal st1) as [st2 r2] eqn:Hstep.
      apply processStackApprovees_path in Hstep. simpl.
      by eapply memoized_step_no_condition.
Qed.

Lemma TraverseApprovees_condition_once_witness :
  tally isAnyCondition
    (events (world (fst (@processStackApprovees chainABC unit acceptAll
       consumeAll ignoreMissing ignoreSolidEntryPoint false false None
       (mkApprovees ["A"; "B"]%string {["A"%string := false]}
          (mkWorld tt [] 0))))))
  = tally isAnyCondition [].
Proof.
  destruct (@TraverseApprovees_condition_once chainABC unit "A"%string
              acceptAll consumeAll ignoreMissing ignoreSolidEntryPoint
              false false None 20 tt) as (_ & _ & Hmemoized).
  apply (Hmemoized
           (mkApprovees ["A"; "B"]%string {["A"%string := false]}
              (mkWorld tt [] 0))
           "A"%string ["B"%string] false).
  - reflexivity.
  - vm_compute. reflexivity.
Defined.

(** C9, as amended. [onSolidEntryPoint] is called for a referenced approvee
    that is a solid entry point and is not yet in [visited], and so at most
    once per identifier during one call, however many nodes reference it;
    every consumed node has had each of its solid-entry-point approvees
    (other than the start identifier, which is pushed without the test)
    reported before it was consumed. *)
Theorem TraverseApprovees_reports_boundary_once `{Tangle} {S : Type}
    (startTxHash : Hash) (condition : Predicate S) (consumer : Consumer S)
    (onMissingApprovee : OnMissingApprovee S)
    (onSolidEntryPoint : OnSolidEntryPoint S)
    (forceRelease traverseSolidEntryPoints : bool) (abortSignal : AbortSignal)
    (fuel : nat) (s0 : S) :
  let evs := events (world (reached (TraverseApprovees startTxHash condition
               consumer onMissingApprovee onSolidEntryPoint forceRelease
               traverseSolidEntryPoints abortSignal fuel s0))) in
  (forall h, tally (isSolidEntryPoint h) evs <= 1)
  /\ (forall newer x err older, evs = newer ++ EvConsumer x err :: older ->
        forall a, approvee x a -> SolidEntryPointsContain a = true ->
                  a <> startTxHash -> EvSolidEntryPoint a ∈ older).
Proof.
  intros evs.
  destruct (TraverseApprovees_inv condition consumer onMissingApprovee
              onSolidEntryPoint forceRelease traverseSolidEntryPoints
              abortSignal startTxHash fuel s0) as [r Hinv].
  split.
  - apply (inv_reported_once _ _ _ _ Hinv).
  - intros newer x err older Hlog a Ha Hsep Hne.
    pose proof (inv_boundary _ _ _ _ Hinv) as Hall. fold evs in Hall.
    rewrite Hlog in Hall. apply eachAfter_split in Hall. by apply Hall.
Qed.

Lemma TraverseApprovees_reports_boundary_once_witness :
  EvSolidEntryPoint "S"%string ∈
    [EvRelease "C" false; EvRetain "C"; EvCondition "C" true None;
     EvRelease "C" false; EvRetain "C"; EvAcquire "C"; EvRelease "A" false;
     EvPush "C"; EvAcquire "A"; EvRelease "B" false; EvConsumer "B" None;
     EvRelease "B" false; EvRetain "B"; EvSolidEntryPoint "S";
     EvCondition "B" true None; EvRelease "B" false; EvRetain "B";
     EvAcquire "B"; EvRelease "A" false; EvPush "B";
     EvCondition "A" true None; EvRelease "A" false; EvRetain "A";
     EvAcquire "A"; EvPush "A"]%string.
Proof.
  destruct (@TraverseApprovees_reports_boundary_once diamondOnBoundary unit
              "A"%string acceptAll consumeAll ignoreMissing
              ignoreSolidEntryPoint false false None 20 tt) as [_ Hbefore].
  apply (Hbefore
           [EvRelease "A" false; EvConsumer "A" None; EvRelease "A" false;
            EvRetain "A"; EvAcquire "A"; EvRelease "C" false]%string
           "C"%string None).
  - vm_compute. reflexivity.
  - exists (mkTransaction "C" "S" "S" false). split; [reflexivity|].
    vm_compute. left.
  - reflexivity.
  - discriminate.
Defined.

(** C9 as written fails: in the diamond, B and C are both consumed and both
    reference the solid entry point S, which is reported once. *)
Lemma onSolidEntryPoint_not_for_every_reference :
  ~ @reportedForEveryReference diamondOnBoundary
      (events (world (reached (@TraverseApprovees diamondOnBoundary unit
         "A"%string acceptAll consumeAll ignoreMissing ignoreSolidEntryPoint
         false false None 20 tt)))).
Proof.
  intros Hclaim.
  assert (2 <= 1) as Habsurd; [|lia].
  apply (Hclaim "B" "C" "S")%string.
  - discriminate.
  - exists None. vm_compute. repeat constructor.
  - exists None. vm_compute. repeat constructor.
  - exists (mkTransaction "B" "S" "S" false). split; [reflexivity|].
    vm_compute. left.
  - exists (mkTransaction "C" "S" "S" false). split; [reflexivity|].
    vm_compute. left.
  - reflexivity.
Qed.

(** ** Handles: every acquisition is released *)

Lemma acquisitions_released h (forces : list bool) :
  acquisitions (rev (EvRelease h <$> forces)) = 0.
Proof. by apply tally_released. Qed.

Lemma releases_released h (forces : list bool) :
  releases (rev (EvRelease h <$> forces)) = length forces.
Proof.
  unfold releases. rewrite tally_rev.
  induction forces as [|f forces IH]; [done|].
  rewrite fmap_cons. cbn [tally isRelease length]. by rewrite IH.
Qed.

Section Handles.
Context `{Tangle} {S : Type}.
Context (condition : Predicate S) (consumer : Consumer S).
Context (Hcondition : releasesItsHandle condition)
        (Hconsumer : releasesItsHandle consumer).

Lemma callCondition_net h tx (w w1 : World S) r :
  callCondition condition h tx w = (w1, r) ->
  acquisitions (events w1) = Datatypes.S (acquisitions (events w)) /\
  releases (events w1) = Datatypes.S (releases (events w)).
Proof using Hcondition.
  intros (-> & _)%callCondition_events. unfold acquisitions, releases.
  cbn [tally isAcquisition isRelease]. rewrite !tally_app.
  fold (acquisitions (rev (EvRelease h <$> released (condition tx (caller w))))).
  fold (releases (rev (EvRelease h <$> released (condition tx (caller w))))).
  rewrite acquisitions_released, releases_released, Hcondition. simpl. lia.
Qed.

Lemma callConsumer_net h tx (w w1 : World S) r :
  callConsumer consumer h tx w = (w1, r) ->
  acquisitions (events w1) = Datatypes.S (acquisitions (events w)) /\
  releases (events w1) = Datatypes.S (releases (events w)).
Proof using Hconsumer.
  intros (-> & _)%callConsumer_events. unfold acquisitions, releases.
  cbn [tally isAcquisition isRelease]. rewrite !tally_app.
  fold (acquisitions (rev (EvRelease h <$> released (consumer tx (caller w))))).
  fold (releases (rev (EvRelease h <$> released (consumer tx (caller w))))).
  rewrite acquisitions_released, releases_released, Hconsumer. simpl. lia.
Qed.

Lemma scanApprovees_net (onSolidEntryPoint : OnSolidEntryPoint S)
    traverseSolidEntryPoints hs vis (w : World S) r vis' w' :
  scanApprovees onSolidEntryPoint traverseSolidEntryPoints hs vis w
    = (r, vis', w') ->
  acquisitions (events w') = acquisitions (events w) /\
  releases (events w') = releases (events w).
Proof.
  intros (reported & -> & _)%scanApprovees_spec. unfold acquisitions, releases.
  by rewrite !tally_app, !tally_reported_other.
Qed.

(** One step of the approvee traversal releases what it acquires. *)
Lemma processStackApprovees_net (onMissingApprovee : OnMissingApprovee S)
    (onSolidEntryPoint : OnSolidEntryPoint S)
    forceRelease traverseSolidEntryPoints abortSignal
    (st st' : ApproveesState S) r :
  processStackApprovees condition consumer onMissingApprovee
    onSolidEntryPoint forceRelease traverseSolidEntryPoints abortSignal st
    = (st', r) ->
  sameNet (events (world st)) (events (world st')).
Proof using Hcondition Hconsumer.
  intros Hstep%processStackApprovees_path. unfold sameNet.
  assert (Hchk : forall cur tx w w1 vis1 t,
            Checked condition cur tx (visited st) w w1 vis1 t ->
            sameNet (events w) (events w1)).
  { intros cur tx w w1 vis1 t [t' ?|w1' t' Hnone Hcond]; unfold sameNet; [lia|].
    apply callCondition_net in Hcond. lia. }
  destruct Hstep as
    [ w Hsel
    | w Hsel Hstack
    | w cur rest s' err Hsel Hstack Hget Hmiss
    | w cur rest tx w1 traverse e Hsel Hstack Hget Hcur Hcond
    | w cur rest tx w1 vis1 Hsel Hstack Hget Hchk'
    | w cur rest tx w1 vis1 a vis2 w2 Hsel Hstack Hget Hchk' Hscan
    | w cur rest tx w1 vis1 vis2 w2 w3 err Hsel Hstack Hget Hchk' Hscan Hcons ];
    apply selectAbort_world in Hsel as (Hw & _); rewrite <- Hw;
    try apply Hchk in Hchk'; unfold sameNet in *;
    try apply callCondition_net in Hcond;
    try apply scanApprovees_net in Hscan;
    try apply callConsumer_net in Hcons;
    unfold acquisitions, releases in *; simpl in *; lia.
Qed.

Lemma loopApprovees_net (onMissingApprovee : OnMissingApprovee S)
    (onSolidEntryPoint : OnSolidEntryPoint S)
    forceRelease traverseSolidEntryPoints abortSignal fuel
    (st : ApproveesState S) :
  sameNet (events (world st))
    (events (world (reached (loopApprovees condition consumer
       onMissingApprovee onSolidEntryPoint forceRelease
       traverseSolidEntryPoints abortSignal fuel st)))).
Proof using Hcondition Hconsumer.
  revert st. induction fuel as [|fuel IH]; intros st; simpl.
  { destruct (stack st); unfold sameNet; simpl; lia. }
  destruct (stack st) eqn:Hstack; [unfold sameNet; simpl; lia|].
  destruct (processStackApprovees _ _ _ _ _ _ _ st) as [st' [e|]] eqn:Hstep;
    apply processStackApprovees_net in Hstep; [done|].
  specialize (IH st'). unfold sameNet in *. lia.
Qed.

End Handles.

(** ** Every step of the approver traversal takes one of the paths *)

Section ApproverStepSound.
Context `{Tangle} {S : Type}.
Context (condition : Predicate S) (consumer : Consumer S)
        (forceRelease : bool) (abortSignal : AbortSignal).

Lemma processStackApprovers_path st st' r :
  processStackApprovers condition consumer forceRelease abortSignal st
    = (st', r) ->
  ApproversStep condition consumer forceRelease abortSignal st st' r.
Proof.
  unfold processStackApprovers.
  destruct (selectAbort abortSignal (bfs st)) as [[|] w] eqn:Hsel.
  { intros ?; simplify_eq. by apply bfs_aborted. }
  destruct (queue st) as [|cur rest] eqn:Hqueue.
  { intros ?; simplify_eq. by apply bfs_empty. }
  destruct (GetCachedTransactionOrNil cur) as [tx|] eqn:Hget; cycle 1.
  { intros ?; simplify_eq. by apply bfs_missing. }
  unfold processCachedApprovers.
  destruct (callCondition _ _ _ _) as [w1 [traverse [e|]]] eqn:Hcond.
  { destruct traverse; intros ?; simplify_eq/=;
      eapply bfs_condition_failed; eauto. }
  destruct traverse; cycle 1.
  { intros ?; simplify_eq/=. eapply bfs_excluded; eauto. }
  destruct (callConsumer consumer cur tx w1) as [w2 [e|]] eqn:Hcons.
  { intros ?; simplify_eq/=. eapply bfs_consumer_failed; eauto. }
  intros ?; simplify_eq/=. eapply bfs_expanded; eauto.
Qed.

End ApproverStepSound.

Lemma pushedOnce_others discovered added evs :
  (forall e, e ∈ added -> forall h, isPush h e = false) ->
  pushedOnce discovered evs -> pushedOnce discovered (added ++ evs).
Proof.
  intros Hadded [Honce Hin]. split.
  - intros h. rewrite tally_app, tally_none; [apply Honce|].
    intros e He. by apply Hadded.
  - intros h [He|He]%elem_of_app; [|by apply Hin].
    apply Hadded with (h := h) in He. simpl in He.
    by rewrite bool_decide_eq_true_2 in He.
Qed.

Lemma pushApprovers_pushedOnce {S} hs (st : ApproversState S) :
  pushedOnce (discovered st) (events (bfs st)) ->
  pushedOnce (discovered (pushApprovers hs st))
             (events (bfs (pushApprovers hs st))).
Proof.
  revert st. induction hs as [|h0 hs IH]; intros st Hst; simpl; [done|].
  destruct (decide (h0 ∈ discovered st)) as [Hin|Hnotin]; [by apply IH|].
  apply IH. simpl. destruct Hst as [Honce Hdisc]. split.
  - intros h. simpl. case_bool_decide as Hh; [subst h0|].
    + rewrite tally_none; [lia|].
      intros [] He; try done. simpl. apply bool_decide_eq_false_2. intros ->.
      by apply Hnotin, Hdisc.
    + apply Honce.
  - intros h [He|He]%elem_of_cons.
    + simplify_eq. set_solver.
    + apply Hdisc in He. set_solver.
Qed.

Lemma pushApprovers_net {S} hs (st : ApproversState S) :
  acquisitions (events (bfs (pushApprovers hs st))) = acquisitions (events (bfs st))
  /\ releases (events (bfs (pushApprovers hs st))) = releases (events (bfs st)).
Proof.
  revert st. induction hs as [|h0 hs IH]; intros st; simpl; [done|].
  destruct (decide (h0 ∈ discovered st)); [by apply IH|].
  destruct (IH (mkApprovers (queue st ++ [h0]) ({[h0]} ∪ discovered st)
                  (emit (EvPush h0) (bfs st)))) as [-> ->]. done.
Qed.

Section ApproversLoop.
Context `{Tangle} {S : Type}.
Context (condition : Predicate S) (consumer : Consumer S)
        (forceRelease : bool) (abortSignal : AbortSignal).

Lemma callCondition_pushedOnce discovered h tx (w w1 : World S) r :
  callCondition condition h tx w = (w1, r) ->
  pushedOnce discovered (events w) -> pushedOnce discovered (events w1).
Proof.
  intros (-> & _)%callCondition_events Hw.
  replace (EvCondition h (fst r) (snd r) :: _) with
    ((EvCondition h (fst r) (snd r)
       :: rev (EvRelease h <$> released (condition tx (caller w)))
       ++ [EvRetain h]) ++ events w)
    by (simpl; by rewrite <- app_assoc).
  apply pushedOnce_others; [|done]. intros e He h'. in_log; done.
Qed.

Lemma callConsumer_pushedOnce discovered h tx (w w1 : World S) r :
  callConsumer consumer h tx w = (w1, r) ->
  pushedOnce discovered (events w) -> pushedOnce discovered (events w1).
Proof.
  intros (-> & _)%callConsumer_events Hw.
  replace (EvConsumer h r :: _) with
    ((EvConsumer h r
       :: rev (EvRelease h <$> released (consumer tx (caller w)))
       ++ [EvRetain h]) ++ events w)
    by (simpl; by rewrite <- app_assoc).
  apply pushedOnce_others; [|done]. intros e He h'. in_log; done.
Qed.

Lemma pushedOnce_emit discovered e (evs : list Event) :
  (forall h, isPush h e = false) ->
  pushedOnce discovered evs -> pushedOnce discovered (e :: evs).
Proof.
  intros He. apply (pushedOnce_others discovered [e]).
  by intros e' ->%list_elem_of_singleton.
Qed.

(** One step of the approver traversal pushes only undiscovered
    identifiers. *)
Lemma processStackApprovers_pushedOnce (st st' : ApproversState S) r :
  processStackApprovers condition consumer forceRelease abortSignal st
    = (st', r) ->
  pushedOnce (discovered st) (events (bfs st)) ->
  pushedOnce (discovered st') (events (bfs st')).
Proof.
  intros Hstep%processStackApprovers_path Hst.
  destruct Hstep as
    [ w Hsel
    | w Hsel Hqueue
    | w cur rest Hsel Hqueue Hget
    | w cur rest tx w1 traverse e Hsel Hqueue Hget Hcond
    | w cur rest tx w1 Hsel Hqueue Hget Hcond
    | w cur rest tx w1 w2 e Hsel Hqueue Hget Hcond Hcons
    | w cur rest tx w1 w2 st2 Hsel Hqueue Hget Hcond Hcons Hpush ];
    apply selectAbort_world in Hsel as (Hw & _); rewrite <- Hw in Hst; simpl;
    try done;
    apply pushedOnce_emit; try done;
    try (subst st2; apply pushApprovers_pushedOnce; simpl);
    try (eapply callConsumer_pushedOnce; [done|]);
    (eapply callCondition_pushedOnce; [done|]);
    by apply pushedOnce_emit.
Qed.

Lemma loopApprovers_pushedOnce fuel (st : ApproversState S) :
  pushedOnce (discovered st) (events (bfs st)) ->
  let st' := reached (loopApprovers condition consumer forceRelease
                        abortSignal fuel st) in
  pushedOnce (discovered st') (events (bfs st')).
Proof.
  revert st. induction fuel as [|fuel IH]; intros st Hst; simpl.
  { by destruct (queue st). }
  destruct (queue st) eqn:Hqueue; [done|].
  destruct (processStackApprovers _ _ _ _ st) as [st' [e|]] eqn:Hstep;
    apply processStackApprovers_pushedOnce in Hstep; try done.
  by apply IH.
Qed.

Context (Hcondition : releasesItsHandle condition)
        (Hconsumer : releasesItsHandle consumer).

(** One step of the approver traversal releases what it acquires. *)
Lemma processStackApprovers_net (st st' : ApproversState S) r :
  processStackApprovers condition consumer forceRelease abortSignal st
    = (st', r) ->
  sameNet (events (bfs st)) (events (bfs st')).
Proof using Hcondition Hconsumer.
  intros Hstep%processStackApprovers_path. unfold sameNet.
  destruct Hstep as
    [ w Hsel
    | w Hsel Hqueue
    | w cur rest Hsel Hqueue Hget
    | w cur rest tx w1 traverse e Hsel Hqueue Hget Hcond
    | w cur rest tx w1 Hsel Hqueue Hget Hcond
    | w cur rest tx w1 w2 e Hsel Hqueue Hget Hcond Hcons
    | w cur rest tx w1 w2 st2 Hsel Hqueue Hget Hcond Hcons Hpush ];
    apply selectAbort_world in Hsel as (Hw & _); rewrite <- Hw;
    try apply (callCondition_net _ Hcondition) in Hcond;
    try apply (callConsumer_net _ Hconsumer) in Hcons;
    try (subst st2;
         destruct (pushApprovers_net (GetApproverHashes cur forceRelease)
                     (mkApprovers rest (discovered st) w2)) as [Ha Hr]);
    unfold acquisitions, releases in *; simpl in *; lia.
Qed.

Lemma loopApprovers_net fuel (st : ApproversState S) :
  sameNet (events (bfs st))
    (events (bfs (reached (loopApprovers condition consumer forceRelease
       abortSignal fuel st)))).
Proof using Hcondition Hconsumer.
  revert st. induction fuel as [|fuel IH]; intros st; simpl.
  { destruct (queue st); unfold sameNet; simpl; lia. }
  destruct (queue st) eqn:Hqueue; [unfold sameNet; simpl; lia|].
  destruct (processStackApprovers _ _ _ _ st) as [st' [e|]] eqn:Hstep;
    apply processStackApprovers_net in Hstep; [done|].
  specialize (IH st'). unfold sameNet in *. lia.
Qed.

End ApproversLoop.

(** C5. During one call of [TraverseApprovers] every identifier, the start
    included, is pushed on the work queue at most once, and every pushed
    identifier is in the discovered set: an identifier is added to the set
    when it is pushed, and one that is in the set is not pushed again. *)
Theorem TraverseApprovers_enqueues_once `{Tangle} {S : Type}
    (startTxHash : Hash) (condition : Predicate S) (consumer : Consumer S)
    (forceRelease : bool) (abortSignal : AbortSignal) (fuel : nat) (s0 : S) :
  let st := reached (TraverseApprovers startTxHash condition consumer
              forceRelease abortSignal fuel s0) in
  (forall h, tally (isPush h) (events (bfs st)) <= 1)
  /\ (forall h, EvPush h ∈ events (bfs st) -> h ∈ discovered st)
  /\ (forall hs (st1 : ApproversState S) h,
        h ∈ discovered st1 ->
        tally (isPush h) (events (bfs (pushApprovers hs st1)))
          = tally (isPush h) (events (bfs st1))).
Proof.
  intros st.
  assert (Hinit : pushedOnce ({[startTxHash]} : gset Hash) [EvPush startTxHash]).
  { split.
    - intros h. simpl. case_bool_decide; lia.
    - intros h Hh%list_elem_of_singleton. simplify_eq. set_solver. }
  destruct (loopApprovers_pushedOnce condition consumer forceRelease
              abortSignal fuel
              (mkApprovers [startTxHash] {[startTxHash]}
                 (mkWorld s0 [EvPush startTxHash] 0)) Hinit)
    as [Honce Hdisc].
  split_and!; [exact Honce | exact Hdisc |].
  clear. intros hs. induction hs as [|h0 hs IH]; intros st1 h Hh; simpl; [done|].
  destruct (decide (h0 ∈ discovered st1)); [by apply IH|].
  rewrite IH by (simpl; set_solver). simpl.
  rewrite bool_decide_eq_false_2; [done|]. intros ->. done.
Qed.

Lemma TraverseApprovers_enqueues_once_witness :
  tally (isPush "D"%string)
    (events (bfs (pushApprovers ["D"; "D"]%string
       (mkApprovers ["C"]%string {["D"%string]} (mkWorld tt [] 0)))))
  = tally (isPush "D"%string) [].
Proof.
  destruct (@TraverseApprovers_enqueues_once diamondFuture unit "A"%string
              acceptAll consumeAll false None 20 tt) as (_ & _ & Hagain).
  apply (Hagain ["D"; "D"]%string
           (mkApprovers ["C"]%string {["D"%string]} (mkWorld tt [] 0))
           "D"%string).
  simpl. apply elem_of_singleton. reflexivity.
Defined.

(** In the diamond-shaped future cone of A, D is reachable through B and
    through C and listed twice under B: it is pushed once. *)
Example diamondFuture_pushes :
  let st := reached (@TraverseApprovers diamondFuture unit "A"%string
              acceptAll consumeAll false None 20 tt) in
  List.filter (fun e => match e with EvPush _ => true | _ => false end)
    (rev (events (bfs st)))
    = [EvPush "A"; EvPush "B"; EvPush "C"; EvPush "D"]%string
  /\ tally isConsumer (events (bfs st)) = 4.
Proof. vm_compute. done. Qed.

(** C8. When the predicate and the consumer each release the retained
    handle they are given, the handle acquisitions (store resolutions and
    retains) of a traversal are as many as its releases, wherever the
    traversal stops: returned [nil], returned an error from any step, or
    between two steps. *)
Theorem traversals_release_every_handle `{Tangle} {S : Type}
    (startTxHash : Hash) (condition : Predicate S) (consumer : Consumer S)
    (onMissingApprovee : OnMissingApprovee S)
    (onSolidEntryPoint : OnSolidEntryPoint S)
    (forceRelease traverseSolidEntryPoints : bool) (abortSignal : AbortSignal)
    (fuel : nat) (s0 : S) :
  releasesItsHandle condition -> releasesItsHandle consumer ->
  (let evs := events (world (reached (TraverseApprovees startTxHash condition
                consumer onMissingApprovee onSolidEntryPoint forceRelease
                traverseSolidEntryPoints abortSignal fuel s0))) in
   acquisitions evs = releases evs)
  /\ (let evs := events (bfs (reached (TraverseApprovers startTxHash condition
                   consumer forceRelease abortSignal fuel s0))) in
      acquisitions evs = releases evs).
Proof.
  intros Hcondition Hconsumer. split; intros evs.
  - pose proof (loopApprovees_net condition consumer Hcondition Hconsumer
                  onMissingApprovee onSolidEntryPoint forceRelease
                  traverseSolidEntryPoints abortSignal fuel
                  (mkApprovees [startTxHash] ∅
                     (mkWorld s0 [EvPush startTxHash] 0))) as Hnet.
    unfold sameNet in Hnet. simpl in Hnet. fold evs in Hnet.
    unfold TraverseApprovees in evs. fold evs in Hnet.
    unfold acquisitions, releases in *. simpl in Hnet. lia.
  - pose proof (loopApprovers_net condition consumer forceRelease abortSignal
                  Hcondition Hconsumer fuel
                  (mkApprovers [startTxHash] {[startTxHash]}
                     (mkWorld s0 [EvPush startTxHash] 0))) as Hnet.
    unfold sameNet in Hnet. simpl in Hnet.
    unfold TraverseApprovers in evs. fold evs in Hnet.
    unfold acquisitions, releases in *. simpl in Hnet. lia.
Qed.

Lemma traversals_release_every_handle_witness :
  acquisitions (events (world (reached (@TraverseApprovees tailAndMissing unit
     "A"%string acceptAll consumeAll failOnMissing ignoreSolidEntryPoint
     false false None 20 tt)))) = 4
  /\ releases (events (bfs (reached (@TraverseApprovers danglingApprover unit
       "A"%string acceptAll consumeAll false None 20 tt)))) = 3.
Proof.
  assert (Hcondition : releasesItsHandle acceptAll) by (intros ? ?; reflexivity).
  assert (Hconsumer : releasesItsHandle consumeAll) by (intros ? ?; reflexivity).
  split.
  - transitivity (releases (events (world (reached (@TraverseApprovees
        tailAndMissing unit "A"%string acceptAll consumeAll failOnMissing
        ignoreSolidEntryPoint false false None 20 tt))))).
    + apply (@traversals_release_every_handle tailAndMissing unit "A"%string
               acceptAll consumeAll failOnMissing ignoreSolidEntryPoint
               false false None 20 tt Hcondition Hconsumer).
    + vm_compute. reflexivity.
  - transitivity (acquisitions (events (bfs (reached (@TraverseApprovers
        danglingApprover unit "A"%string acceptAll consumeAll false None
        20 tt))))).
    + symmetry.
      apply (@traversals_release_every_handle danglingApprover unit "A"%string
               acceptAll consumeAll failOnMissing ignoreSolidEntryPoint
               false false None 20 tt Hcondition Hconsumer).
    + vm_compute. reflexivity.
Defined.

(** ** Missing transactions and the abort signal *)

(** C6. An identifier that the store does not resolve: [TraverseApprovers]
    returns [ErrTransactionNotFound] at once; [TraverseApprovees] marks it
    [false] in [visited], removes it from the stack, calls
    [onMissingApprovee] on it, returns that callback's error if there is
    one, and goes on with the rest of the stack otherwise. *)
Theorem missing_transaction `{Tangle} {S : Type}
    (condition : Predicate S) (consumer : Consumer S)
    (onMissingApprovee : OnMissingApprovee S)
    (onSolidEntryPoint : OnSolidEntryPoint S)
    (forceRelease traverseSolidEntryPoints : bool) (abortSignal : AbortSignal) :
  (forall (st : ApproversState S) w cur rest fuel,
     selectAbort abortSignal (bfs st) = (false, w) ->
     queue st = cur :: rest ->
     GetCachedTransactionOrNil cur = None ->
     loopApprovers condition consumer forceRelease abortSignal
       (Datatypes.S fuel) st
     = Done (mkApprovers rest (discovered st) w)
         (Some (ErrTransactionNotFound cur)))
  /\ (forall (st : ApproveesState S) w cur rest fuel s' err,
        selectAbort abortSignal (world st) = (false, w) ->
        stack st = cur :: rest ->
        GetCachedTransactionOrNil cur = None ->
        onMissingApprovee cur (caller w) = (s', err) ->
        let st' := mkApprovees rest (<[cur := false]> (visited st))
                     (emit (EvMissing cur err) (setCaller s' w)) in
        processStackApprovees condition consumer onMissingApprovee
          onSolidEntryPoint forceRelease traverseSolidEntryPoints
          abortSignal st = (st', err)
        /\ loopApprovees condition consumer onMissingApprovee
             onSolidEntryPoint forceRelease traverseSolidEntryPoints
             abortSignal (Datatypes.S fuel) st
           = match err with
             | Some e => Done st' (Some e)
             | None =>
                 loopApprovees condition consumer onMissingApprovee
                   onSolidEntryPoint forceRelease traverseSolidEntryPoints
                   abortSignal fuel st'
             end).
Proof.
  split.
  - intros st w cur rest fuel Hsel Hqueue Hget. simpl.
    unfold processStackApprovers. by rewrite Hqueue, Hsel, Hget.
  - intros st w cur rest fuel s' err Hsel Hstack Hget Hmiss st'.
    assert (Hstep : processStackApprovees condition consumer onMissingApprovee
              onSolidEntryPoint forceRelease traverseSolidEntryPoints
              abortSignal st = (st', err)).
    { unfold processStackApprovees. by rewrite Hsel, Hstack, Hget, Hmiss. }
    split; [done|]. simpl. rewrite Hstack, Hstep. by destruct err.
Qed.

Lemma missing_transaction_witness :
  @TraverseApprovers danglingApprover unit "X"%string acceptAll consumeAll
    false None 1 tt
  = Done (mkApprovers [] {["X"%string]} (mkWorld tt [EvPush "X"%string] 1))
      (Some (ErrTransactionNotFound "X"%string))
  /\ @TraverseApprovees danglingApprover unit "X"%string acceptAll consumeAll
       failOnMissing ignoreSolidEntryPoint false false None 1 tt
     = Done (mkApprovees [] {["X"%string := false]}
               (mkWorld tt [EvMissing "X" (Some (ErrCaller "X"));
                            EvPush "X"]%string 1))
         (Some (ErrCaller "X"%string)).
Proof.
  destruct (@missing_transaction danglingApprover unit acceptAll consumeAll
              failOnMissing ignoreSolidEntryPoint false false None)
    as [Hforward Hbackward].
  split.
  - exact (Hforward
             (mkApprovers ["X"%string] {["X"%string]}
                (mkWorld tt [EvPush "X"%string] 0))
             (mkWorld tt [EvPush "X"%string] 1) "X"%string [] 0
             eq_refl eq_refl eq_refl).
  - exact (proj2 (Hbackward
             (mkApprovees ["X"%string] ∅ (mkWorld tt [EvPush "X"%string] 0))
             (mkWorld tt [EvPush "X"%string] 1) "X"%string [] 0
             tt (Some (ErrCaller "X"%string))
             eq_refl eq_refl eq_refl eq_refl)).
Defined.

(** C7. When the abort signal delivers at the first check, both traversals
    return [ErrOperationAborted] with the log as it was at the start: no
    predicate and no consumer invocation.  Every step checks the signal
    first: a step that finds it delivered returns the error and leaves the
    stack, the bookkeeping map, the caller state and the log as they
    were. *)
Theorem aborted_traversal `{Tangle} {S : Type}
    (startTxHash : Hash) (condition : Predicate S) (consumer : Consumer S)
    (onMissingApprovee : OnMissingApprovee S)
    (onSolidEntryPoint : OnSolidEntryPoint S)
    (forceRelease traverseSolidEntryPoints : bool) :
  (forall delivers fuel (s0 : S),
     delivers 0 = true ->
     TraverseApprovees startTxHash condition consumer onMissingApprovee
       onSolidEntryPoint forceRelease traverseSolidEntryPoints
       (Some delivers) (Datatypes.S fuel) s0
     = Done (mkApprovees [startTxHash] ∅ (mkWorld s0 [EvPush startTxHash] 1))
         (Some ErrOperationAborted)
     /\ TraverseApprovers startTxHash condition consumer forceRelease
          (Some delivers) (Datatypes.S fuel) s0
        = Done (mkApprovers [startTxHash] {[startTxHash]}
                  (mkWorld s0 [EvPush startTxHash] 1))
            (Some ErrOperationAborted))
  /\ (forall abortSignal (st : ApproveesState S),
        fst (selectAbort abortSignal (world st)) = true ->
        processStackApprovees condition consumer onMissingApprovee
          onSolidEntryPoint forceRelease traverseSolidEntryPoints
          abortSignal st
        = (mkApprovees (stack st) (visited st)
             (mkWorld (caller (world st)) (events (world st))
                (Datatypes.S (polls (world st)))),
           Some ErrOperationAborted))
  /\ (forall abortSignal (st : ApproversState S),
        fst (selectAbort abortSignal (bfs st)) = true ->
        processStackApprovers condition consumer forceRelease abortSignal st
        = (mkApprovers (queue st) (discovered st)
             (mkWorld (caller (bfs st)) (events (bfs st))
                (Datatypes.S (polls (bfs st)))),
           Some ErrOperationAborted)).
Proof.
  split_and!.
  - intros delivers fuel s0 Hd. split.
    + unfold TraverseApprovees. simpl.
      unfold processStackApprovees, selectAbort. simpl. by rewrite Hd.
    + unfold TraverseApprovers. simpl.
      unfold processStackApprovers, selectAbort. simpl. by rewrite Hd.
  - intros abortSignal st Hsel. unfold processStackApprovees.
    unfold selectAbort in *. simpl in Hsel. by rewrite Hsel.
  - intros abortSignal st Hsel. unfold processStackApprovers.
    unfold selectAbort in *. simpl in Hsel. by rewrite Hsel.
Qed.

Lemma aborted_traversal_witness :
  @TraverseApprovees chainABC unit "A"%string acceptAll consumeAll
    ignoreMissing ignoreSolidEntryPoint false false closedChannel 20 tt
  = Done (mkApprovees ["A"%string] ∅ (mkWorld tt [EvPush "A"%string] 1))
      (Some ErrOperationAborted)
  /\ @TraverseApprovers chainABC unit "A"%string acceptAll consumeAll false
       closedChannel 20 tt
     = Done (mkApprovers ["A"%string] {["A"%string]}
               (mkWorld tt [EvPush "A"%string] 1))
         (Some ErrOperationAborted).
Proof.
  destruct (@aborted_traversal chainABC unit "A"%string acceptAll consumeAll
              ignoreMissing ignoreSolidEntryPoint false false) as [Hfirst _].
  apply (Hfirst (fun _ => true) 19 tt). reflexivity.
Defined.

(** ** Tail finding *)

Lemma loopApprovees_empty `{Tangle} {S : Type}
    (condition : Predicate S) (consumer : Consumer S)
    (onMissingApprovee : OnMissingApprovee S)
    (onSolidEntryPoint : OnSolidEntryPoint S)
    (forceRelease traverseSolidEntryPoints : bool) (abortSignal : AbortSignal)
    fuel (st : ApproveesState S) :
  stack st = [] ->
  loopApprovees condition consumer onMissingApprovee onSolidEntryPoint
    forceRelease traverseSolidEntryPoints abortSignal fuel st = Done st None.
Proof. intros Hs. destruct fuel; simpl; by rewrite Hs. Qed.

Lemma loopApprovees_continue `{Tangle} {S : Type}
    (condition : Predicate S) (consumer : Consumer S)
    (onMissingApprovee : OnMissingApprovee S)
    (onSolidEntryPoint : OnSolidEntryPoint S)
    (forceRelease traverseSolidEntryPoints : bool) (abortSignal : AbortSignal)
    fuel (st st' : ApproveesState S) cur rest :
  stack st = cur :: rest ->
  processStackApprovees condition consumer onMissingApprovee onSolidEntryPoint
    forceRelease traverseSolidEntryPoints abortSignal st = (st', None) ->
  loopApprovees condition consumer onMissingApprovee onSolidEntryPoint
    forceRelease traverseSolidEntryPoints abortSignal (Datatypes.S fuel) st
  = loopApprovees condition consumer onMissingApprovee onSolidEntryPoint
      forceRelease traverseSolidEntryPoints abortSignal fuel st'.
Proof. intros Hs Hstep. simpl. by rewrite Hs, Hstep. Qed.

Section TailSteps.
Context `{Tangle} (startTxHash : Hash) (skipStartTx : bool).

Local Abbreviation step :=
  (processStackApprovees (tailsCondition startTxHash skipStartTx)
     tailsConsumer tailsOnMissingApprovee tailsOnSolidEntryPoint
     true false None).

(** The predicate lets [cur] through and its single approvee [a] is new
    and no solid entry point: [a] is pushed. *)
Lemma tails_descend cur rest vis (w : World (gset Hash)) tx a :
  GetCachedTransactionOrNil cur = Some tx ->
  vis !! cur = None ->
  skipStartTx && String.eqb startTxHash (GetTxHash tx) = true
    \/ IsTail tx = false ->
  GetTrunkHash tx = a -> GetBranchHash tx = a -> a <> cur ->
  vis !! a = None -> SolidEntryPointsContain a = false ->
  step (mkApprovees (cur :: rest) vis w)
  = (mkApprovees (a :: cur :: rest) (<[cur := true]> vis)
       (mkWorld (caller w)
          (EvRelease cur true :: EvPush a :: EvCondition cur true None
             :: EvRelease cur true :: EvRetain cur :: EvAcquire cur
             :: events w)
          (Datatypes.S (polls w))), None).
Proof.
  intros Hget Hcur Hpass Ht Hb Hne Ha Hsep.
  unfold processStackApprovees, processCachedApprovees. simpl.
  rewrite Hget, Hcur.
  assert (Hc : tailsCondition startTxHash skipStartTx tx (caller w)
               = mkReturned (caller w) [true] (true, None)).
  { unfold tailsCondition. destruct Hpass as [->| ->]; [done|].
    by destruct (_ && _). }
  unfold callCondition. simpl. rewrite Hc. simpl.
  unfold approveeHashes. rewrite Ht, Hb, decide_True by done. simpl.
  rewrite lookup_insert_ne by done. rewrite Ha, Hsep. simpl. done.
Qed.

(** The predicate records the tail [cur] and stops there. *)
Lemma tails_record cur rest vis (w : World (gset Hash)) tx :
  GetCachedTransactionOrNil cur = Some tx ->
  vis !! cur = None ->
  skipStartTx && String.eqb startTxHash (GetTxHash tx) = false ->
  IsTail tx = true ->
  step (mkApprovees (cur :: rest) vis w)
  = (mkApprovees rest (<[cur := false]> vis)
       (mkWorld ({[GetTxHash tx]} ∪ caller w)
          (EvRelease cur true :: EvCondition cur false None
             :: EvRelease cur true :: EvRetain cur :: EvAcquire cur
             :: events w)
          (Datatypes.S (polls w))), None).
Proof.
  intros Hget Hcur Hskip Htail.
  unfold processStackApprovees, processCachedApprovees. simpl.
  rewrite Hget, Hcur.
  unfold callCondition, tailsCondition. simpl. rewrite Hskip, Htail. done.
Qed.

(** [cur] was let through and its single approvee is settled: [cur] is
    consumed. *)
Lemma tails_consume cur rest vis (w : World (gset Hash)) tx a :
  GetCachedTransactionOrNil cur = Some tx ->
  vis !! cur = Some true ->
  GetTrunkHash tx = a -> GetBranchHash tx = a ->
  is_Some (vis !! a) ->
  step (mkApprovees (cur :: rest) vis w)
  = (mkApprovees rest vis
       (mkWorld (caller w)
          (EvRelease cur true :: EvConsumer cur None
             :: EvRelease cur true :: EvRetain cur :: EvAcquire cur
             :: events w)
          (Datatypes.S (polls w))), None).
Proof.
  intros Hget Hcur Ht Hb [b Ha].
  unfold processStackApprovees, processCachedApprovees. simpl.
  rewrite Hget, Hcur.
  unfold approveeHashes. rewrite Ht, Hb, decide_True by done. simpl.
  rewrite Ha. done.
Qed.
End TailSteps.

(** C4. In a tangle that stores the chain A -> B -> C (trunk and branch of A
    are B, those of B are C), each transaction under its own hash, with B no
    tail, C a tail, and B and C no solid entry points:
    - if A is no tail, [FindAllTails(A, false)] returns exactly {C};
    - if A is a tail, [FindAllTails(A, false)] returns exactly {A}, and the
      log shows that only A was resolved: its approvees are not traversed;
    - if A is a tail, [FindAllTails(A, true)] returns exactly {C}: A is not
      recorded and the traversal goes on past it. *)
Theorem FindAllTails_chain `{Tangle} (A B C : Hash) (tA tB tC : Transaction)
    (forceRelease : bool) (fuel : nat) :
  GetCachedTransactionOrNil A = Some tA -> GetTxHash tA = A ->
  GetCachedTransactionOrNil B = Some tB -> GetTxHash tB = B ->
  GetCachedTransactionOrNil C = Some tC -> GetTxHash tC = C ->
  GetTrunkHash tA = B -> GetBranchHash tA = B ->
  GetTrunkHash tB = C -> GetBranchHash tB = C ->
  IsTail tB = false -> IsTail tC = true ->
  SolidEntryPointsContain B = false -> SolidEntryPointsContain C = false ->
  A <> C ->
  (IsTail tA = false ->
     FindAllTails A false forceRelease (5 + fuel) = Some ({[C]}, None))
  /\ (IsTail tA = true ->
        FindAllTails A false forceRelease (1 + fuel) = Some ({[A]}, None)
        /\ findAllTailsRun A false forceRelease (1 + fuel)
           = Done (mkApprovees [] {[A := false]}
                     (mkWorld {[A]}
                        [EvRelease A true; EvCondition A false None;
                         EvRelease A true; EvRetain A; EvAcquire A; EvPush A]
                        1)) None)
  /\ (IsTail tA = true ->
        FindAllTails A true forceRelease (5 + fuel) = Some ({[C]}, None)).
Proof.
  intros HA HhA HB HhB HC HhC HAt HAb HBt HBb HtB HtC HsB HsC HAC.
  assert (A <> B) as HAB by (intros ->; simplify_eq; congruence).
  assert (B <> C) as HBC by (intros ->; congruence).
  assert (Hwalk : forall skipStartTx,
            skipStartTx = true \/ IsTail tA = false ->
            FindAllTails A skipStartTx forceRelease (5 + fuel)
            = Some ({[C]}, None)).
  { intros skipStartTx HpassA.
    unfold FindAllTails, findAllTailsRun, TraverseApprovees.
    change (5 + fuel) with (Datatypes.S (Datatypes.S (Datatypes.S
              (Datatypes.S (Datatypes.S fuel))))).
    erewrite loopApprovees_continue; [|done|]; cycle 1.
    { apply (tails_descend _ _ _ _ _ _ tA B); try done.
      destruct HpassA as [->|?]; [left|by right].
      rewrite HhA. simpl. apply String.eqb_refl. }
    erewrite loopApprovees_continue; [|done|]; cycle 1.
    { apply (tails_descend _ _ _ _ _ _ tB C); try done.
      - by rewrite lookup_insert_ne.
      - by right.
      - by rewrite lookup_insert_ne. }
    erewrite loopApprovees_continue; [|done|]; cycle 1.
    { apply (tails_record _ _ _ _ _ _ tC); try done.
      - rewrite !lookup_insert_ne by done. done.
      - rewrite HhC. apply andb_false_iff. right. by apply String.eqb_neq. }
    erewrite loopApprovees_continue; [|done|]; cycle 1.
    { apply (tails_consume _ _ _ _ _ _ tB C); try done.
      - rewrite lookup_insert_ne by done. by rewrite lookup_insert_eq.
      - rewrite lookup_insert_eq. by eexists. }
    erewrite loopApprovees_continue; [|done|]; cycle 1.
    { apply (tails_consume _ _ _ _ _ _ tA B); try done.
      - rewrite !lookup_insert_ne by done. by rewrite lookup_insert_eq.
      - rewrite lookup_insert_ne by done. rewrite lookup_insert_eq. by eexists. }
    rewrite loopApprovees_empty by done. simpl.
    rewrite HhC. by rewrite (right_id_L ∅ (∪)). }
  split_and!.
  - intros HtA. apply Hwalk. by right.
  - intros HtA.
    assert (Hrun : findAllTailsRun A false forceRelease (1 + fuel)
              = Done (mkApprovees [] {[A := false]}
                        (mkWorld {[A]}
                           [EvRelease A true; EvCondition A false None;
                            EvRelease A true; EvRetain A; EvAcquire A;
                            EvPush A] 1)) None).
    { unfold findAllTailsRun, TraverseApprovees.
      change (1 + fuel) with (Datatypes.S fuel).
      erewrite loopApprovees_continue; [|done|]; cycle 1.
      { apply (tails_record _ _ _ _ _ _ tA); done. }
      rewrite loopApprovees_empty by done. simpl.
      rewrite HhA. by rewrite (right_id_L ∅ (∪)). }
    split; [|done]. unfold FindAllTails. by rewrite Hrun.
  - intros HtA. apply Hwalk. by left.
Qed.

Lemma FindAllTails_chain_witness :
  @FindAllTails chainABC "A"%string false false 5 = Some ({["C"%string]}, None)
  /\ @FindAllTails chainTailA "A"%string false false 1
     = Some ({["A"%string]}, None)
  /\ @FindAllTails chainTailA "A"%string true false 5
     = Some ({["C"%string]}, None).
Proof.
  pose proof (@FindAllTails_chain chainABC "A" "B" "C"
              (mkTransaction "A" "B" "B" false)
              (mkTransaction "B" "C" "C" false)
              (mkTransaction "C" "D" "D" true) false 0
              eq_refl eq_refl eq_refl eq_refl eq_refl eq_refl
              eq_refl eq_refl eq_refl eq_refl eq_refl eq_refl
              eq_refl eq_refl)%string as Hchain.
  destruct Hchain as (Hplain & _ & _); [discriminate|].
  pose proof (@FindAllTails_chain chainTailA "A" "B" "C"
              (mkTransaction "A" "B" "B" true)
              (mkTransaction "B" "C" "C" false)
              (mkTransaction "C" "D" "D" true) false 0
              eq_refl eq_refl eq_refl eq_refl eq_refl eq_refl
              eq_refl eq_refl eq_refl eq_refl eq_refl eq_refl
              eq_refl eq_refl)%string as Hchain.
  destruct Hchain as (_ & Hstop & Hskip); [discriminate|].
  split_and!.
  - apply Hplain. reflexivity.
  - apply Hstop. reflexivity.
  - apply Hskip. reflexivity.
Defined.

Lemma recordedIn_others `{Tangle} tails added evs :
  (forall e, e ∈ added -> isStop e = false) ->
  recordedIn tails evs -> recordedIn tails (added ++ evs).
Proof.
  intros Hadded Hrec h. rewrite (Hrec h). split.
  - intros (cur & tx & ? & ? & ? & Hin). exists cur, tx.
    split_and!; try done. apply elem_of_app. by right.
  - intros (cur & tx & ? & ? & ? & [Hin|Hin]%elem_of_app).
    + by apply Hadded in Hin.
    + by exists cur, tx.
Qed.

Lemma recordedIn_emit `{Tangle} tails e evs :
  isStop e = false -> recordedIn tails evs -> recordedIn tails (e :: evs).
Proof.
  intros He. apply (recordedIn_others tails [e]).
  by intros e' ->%list_elem_of_singleton.
Qed.

Section TailsRecorded.
Context `{Tangle} (startTxHash : Hash) (skipStartTx : bool).

Lemma tailsCondition_recorded cur tx (w w1 : World (gset Hash)) traverse err :
  GetCachedTransactionOrNil cur = Some tx ->
  callCondition (tailsCondition startTxHash skipStartTx) cur tx w
    = (w1, (traverse, err)) ->
  recordedIn (caller w) (events w) ->
  err = None /\ recordedIn (caller w1) (events w1).
Proof.
  intros Hget (Hev & _ & Hres & Hcaller)%callCondition_events Hrec.
  rewrite Hev, Hcaller. simpl. clear Hev Hcaller.
  assert (Hrest : recordedIn (caller w)
            (rev (EvRelease cur <$>
               released (tailsCondition startTxHash skipStartTx tx (caller w)))
             ++ EvRetain cur :: events w)).
  { replace (rev _ ++ EvRetain cur :: events w) with
      ((rev (EvRelease cur <$>
          released (tailsCondition startTxHash skipStartTx tx (caller w)))
        ++ [EvRetain cur]) ++ events w) by (by rewrite <- app_assoc).
    apply recordedIn_others; [|done]. intros e He. in_log; done. }
  revert Hres Hrest. unfold tailsCondition.
  destruct (skipStartTx && String.eqb startTxHash (GetTxHash tx)); simpl.
  { intros [= -> ->] Hrest. split; [done|]. by apply recordedIn_emit. }
  destruct (IsTail tx) eqn:Htail; simpl; cycle 1.
  { intros [= -> ->] Hrest. split; [done|]. by apply recordedIn_emit. }
  intros [= -> ->] Hrest. split; [done|].
  intros h. rewrite elem_of_union, elem_of_singleton, (Hrest h). split.
  - intros [->|(cur' & tx' & ? & ? & ? & Hin)].
    + exists cur, tx. split_and!; try done. by left.
    + exists cur', tx'. split_and!; try done. by right.
  - intros (cur' & tx' & Hget' & Hh & Htail' & [Heq|Hin]%elem_of_cons).
    + simplify_eq. by left.
    + right. by exists cur', tx'.
Qed.

Lemma tails_step_recorded (st st' : ApproveesState (gset Hash)) r :
  ApproveesStep (tailsCondition startTxHash skipStartTx) tailsConsumer
    tailsOnMissingApprovee tailsOnSolidEntryPoint true false None st st' r ->
  recordedIn (caller (world st)) (events (world st)) ->
  recordedIn (caller (world st')) (events (world st')).
Proof.
  intros Hstep Hst.
  assert (Hacq : forall cur w,
            selectAbort None (world st) = (false, w) ->
            recordedIn (caller (emit (EvAcquire cur) w))
                       (events (emit (EvAcquire cur) w))).
  { intros cur w (Hw & Hc & _)%selectAbort_world. simpl. rewrite Hw, Hc.
    by apply recordedIn_emit. }
  assert (Hchk : forall cur tx w w1 vis1 t,
            GetCachedTransactionOrNil cur = Some tx ->
            Checked (tailsCondition startTxHash skipStartTx) cur tx
              (visited st) w w1 vis1 t ->
            recordedIn (caller w) (events w) ->
            recordedIn (caller w1) (events w1)).
  { intros cur tx w w1 vis1 t Hget [t' ?|w1' t' Hnone Hcond] Hw; [done|].
    by destruct (tailsCondition_recorded _ _ _ _ _ _ Hget Hcond Hw). }
  assert (Hscan : forall hs vis (w : World (gset Hash)) r' vis' w',
            scanApprovees tailsOnSolidEntryPoint false hs vis w
              = (r', vis', w') ->
            recordedIn (caller w) (events w) ->
            recordedIn (caller w') (events w')).
  { intros hs vis w r' vis' w' Hsc Hw.
    rewrite (scanApprovees_caller_unchanged _ _ _ _ _ _ _ _
               (fun _ _ => eq_refl) Hsc).
    apply scanApprovees_spec in Hsc as (reported & -> & _).
    apply recordedIn_others; [|done]. intros e He. in_log; done. }
  assert (Hcons : forall cur tx (w w3 : World (gset Hash)) err,
            callConsumer tailsConsumer cur tx w = (w3, err) ->
            recordedIn (caller w) (events w) ->
            recordedIn (caller w3) (events w3)).
  { intros cur tx w w3 err (-> & _ & _ & ->)%callConsumer_events Hw. simpl.
    apply recordedIn_emit; [done|].
    replace (EvRelease cur true :: EvRetain cur :: events w) with
      ([EvRelease cur true; EvRetain cur] ++ events w) by done.
    apply recordedIn_others; [|done]. intros e He. in_log; done. }
  destruct Hstep as
    [ w Hsel
    | w Hsel Hstack
    | w cur rest s' err Hsel Hstack Hget Hmiss
    | w cur rest tx w1 traverse e Hsel Hstack Hget Hcur Hcond
    | w cur rest tx w1 vis1 Hsel Hstack Hget Hchk'
    | w cur rest tx w1 vis1 a vis2 w2 Hsel Hstack Hget Hchk' Hscan'
    | w cur rest tx w1 vis1 vis2 w2 w3 err Hsel Hstack Hget Hchk' Hscan' Hcons' ];
    simpl.
  - apply selectAbort_world in Hsel as (-> & -> & _). done.
  - apply selectAbort_world in Hsel as (-> & -> & _). done.
  - unfold tailsOnMissingApprovee in Hmiss. simplify_eq.
    apply selectAbort_world in Hsel as (-> & -> & _).
    by apply recordedIn_emit.
  - by destruct (tailsCondition_recorded _ _ _ _ _ _ Hget Hcond
                   (Hacq _ _ Hsel)).
  - apply recordedIn_emit; [done|]. eauto.
  - do 2 (apply recordedIn_emit; [done|]). eauto.
  - apply recordedIn_emit; [done|]. eauto.
Qed.

Lemma tails_loop_recorded fuel (st : ApproveesState (gset Hash)) :
  recordedIn (caller (world st)) (events (world st)) ->
  let st' := reached (loopApprovees (tailsCondition startTxHash skipStartTx)
               tailsConsumer tailsOnMissingApprovee tailsOnSolidEntryPoint
               true false None fuel st) in
  recordedIn (caller (world st')) (events (world st')).
Proof.
  revert st. induction fuel as [|fuel IH]; intros st Hst; simpl.
  { by destruct (stack st). }
  destruct (stack st) eqn:Hstack; [done|].
  destruct (processStackApprovees _ _ _ _ _ _ _ st) as [st' [e|]] eqn:Hstep;
    apply processStackApprovees_path in Hstep;
    pose proof (tails_step_recorded _ _ _ Hstep Hst); [done|].
  by apply IH.
Qed.

End TailsRecorded.

(** C10. When [FindAllTails] returns an error, the map it returns with the
    error holds exactly the tails its predicate recorded before the
    failure: the result is the pair of the map and the error, not the error
    alone. *)
Theorem FindAllTails_partial_result `{Tangle} (startTxHash : Hash)
    (skipStartTx forceRelease : bool) (fuel : nat)
    (tails : gset Hash) (e : Error) :
  FindAllTails startTxHash skipStartTx forceRelease fuel = Some (tails, Some e) ->
  recordedIn tails
    (events (world (reached
       (findAllTailsRun startTxHash skipStartTx forceRelease fuel)))).
Proof.
  unfold FindAllTails.
  pose proof (tails_loop_recorded startTxHash skipStartTx fuel
                (mkApprovees [startTxHash] ∅
                   (mkWorld ∅ [EvPush startTxHash] 0))) as Hrec.
  unfold findAllTailsRun, TraverseApprovees.
  destruct (loopApprovees _ _ _ _ _ _ _ fuel _) as [st err|st]; [|done].
  intros [= <- ->]. apply Hrec. simpl.
  intros h. split; [set_solver|].
  intros (cur & tx & _ & _ & _ & Hin). in_log.
Qed.

Lemma FindAllTails_partial_result_witness :
  @FindAllTails tailAndMissing "A"%string false false 10
  = Some ({["B"%string]}, Some (ErrFindAllTailsFailed "M"%string))
  /\ @recordedIn tailAndMissing {["B"%string]}
       (events (world (reached
          (@findAllTailsRun tailAndMissing "A"%string false false 10)))).
Proof.
  assert (Hreturned : @FindAllTails tailAndMissing "A"%string false false 10
            = Some ({["B"%string]}, Some (ErrFindAllTailsFailed "M"%string)))
    by (vm_compute; reflexivity).
  split; [exact Hreturned|].
  exact (@FindAllTails_partial_result tailAndMissing "A"%string false false 10
           {["B"%string]} (ErrFindAllTailsFailed "M"%string) Hreturned).
Defined.

(** C3 fails on the code: [FindAllTails] does not hand its [forceRelease]
    argument to [TraverseApprovees] but the constant [true], so the run is
    the same for both values of the argument, and called with
    [forceRelease = false] it releases the handle of A with [force = true]
    (the last event of the log is the deferred release of the step). *)
Theorem FindAllTails_ignores_forceRelease :
  (forall `{Tangle} startTxHash skipStartTx fuel,
     findAllTailsRun startTxHash skipStartTx false fuel
     = findAllTailsRun startTxHash skipStartTx true fuel)
  /\ rev (events (world (reached
       (@findAllTailsRun chainTailA "A"%string false false 10))))
     = [EvPush "A"; EvAcquire "A"; EvRetain "A"; EvRelease "A" true;
        EvCondition "A" false None; EvRelease "A" true]%string.
Proof. split; [reflexivity | vm_compute; reflexivity]. Qed.
